(** * jarnsaxa: text helpers, index-tracking tokenizer and dictionary <-> HDF conversion

    A shallow embedding of [src/jarnsaxa.py].  Strings handled character
    by character ([parse_idx], [barstr], [ensureWhitespace]) are lists over
    an open character type; the two [while] loops get a bound on the
    number of iterations, [None] standing for a loop that has not ended
    within it.  Python values are modelled by the inductive type [pyval],
    dictionaries by association lists in insertion order (the writer walks
    [items()] in that order), the file system by a finite map from paths
    to files, and standard output by the list of lines printed so far.
    Exceptions are explicit: a call either returns ([Ret]) or raises
    ([Exc]).

    The first half of the file holds the model and the notions the
    statements use; the second half holds the theorems. *)

From stdpp Require Import base list sorting strings pretty gmap.
From Stdlib Require Import ZArith Sorted.

(** The nested type [pyval] gets the induction principle written for it
    below ([pyval_dict_ind]); none is generated. *)
#[local] Unset Elimination Schemes.

(** * The model *)

(** ** [parse_idx] (lines 92-120) *)

Module Tokens.
Section ParseIdx.

(** A Python [str] is a sequence of characters (code points); the
    tokenizer only compares them, so the character type is left open. *)
Context {char : Type} `{!EqDecision char}.

(** [class StringIdx]: the token text with its start and end index. *)
Record StringIdx := mkStringIdx {
  str : list char;
  idx : nat;
  idx_end : nat
}.

(** [input[a:b]] for non-negative [a] and [b]. *)
Definition slice (input : list char) (a b : nat) : list char :=
  take (b - a) (drop a input).

(** [itertools.groupby(iterable, key)] for a boolean key: the maximal runs
    of consecutive elements with the same key, each with its key. *)
Fixpoint groupby (key : char → bool) (l : list char) : list (bool * list char) :=
  match l with
  | [] => []
  | x :: l' =>
      match groupby key l' with
      | (k, g) :: gs =>
          if Bool.eqb (key x) k then (k, x :: g) :: gs
          else (key x, [x]) :: (k, g) :: gs
      | [] => [(key x, [x])]
      end
  end.

(** The longest prefix of [l] whose elements satisfy [f], and what
    follows it. *)
Fixpoint take_while (f : char → bool) (l : list char) : list char :=
  match l with
  | x :: l' => if f x then x :: take_while f l' else []
  | [] => []
  end.

Fixpoint drop_while (f : char → bool) (l : list char) : list char :=
  match l with
  | x :: l' => if f x then drop_while f l' else l
  | [] => []
  end.

(** The body of the generator [parse_two_idx], from position [p] on. *)
Fixpoint parse_two_idx_loop (p : nat) (groups : list (bool * list char))
  : list (nat * nat) :=
  match groups with
  | [] => []
  | (k, g) :: rest =>
      let q := p + length g in
      if negb k then (p, q) :: parse_two_idx_loop q rest
      else parse_two_idx_loop q rest
  end.

(** [x in delims] for a one-character [x]. *)
Definition is_delim (delims : list char) (x : char) : bool :=
  bool_decide (x ∈ delims).

Definition parse_two_idx (input delims : list char) : list (nat * nat) :=
  parse_two_idx_loop 0 (groupby (is_delim delims) input).

(** [parse_idx(input, delims, keep_delims)]; [keep_delims] is not used by
    the source. *)
Definition parse_idx (input delims keep_delims : list char) : list StringIdx :=
  let sections := parse_two_idx input delims in
  (λ s, mkStringIdx (slice input s.1 s.2) s.1 s.2) <$> sections.

(** The runs of [groupby]: no group is empty, the elements of a group
    share its key, and neighbouring groups differ in their key. *)
Fixpoint runs (key : char → bool) (gs : list (bool * list char)) : Prop :=
  match gs with
  | [] => True
  | (k, g) :: rest =>
      g ≠ [] ∧ Forall (λ x, key x = k) g ∧
      match rest with (k', _) :: _ => k' = negb k | [] => True end ∧
      runs key rest
  end.

(** *** Notions for the statements *)

(** The token [t] moved [n] characters to the right. *)
Definition shift_token (n : nat) (t : StringIdx) : StringIdx :=
  mkStringIdx (str t) (idx t + n) (idx_end t + n).

(** The sections of [x :: l] for an [x] that is no delimiter, from the
    sections of [l] counted from [S p]: [x] extends the section that
    starts at [S p], or is a section of its own. *)
Definition extend_section (p : nat) (sections : list (nat * nat))
  : list (nat * nat) :=
  match sections with
  | (a, b) :: rest =>
      if decide (a = S p) then (p, b) :: rest else (p, S p) :: sections
  | [] => [(p, S p)]
  end.

End ParseIdx.
End Tokens.

(** ** Python values, the container and the world *)

(** The Python values that occur as dictionary values.  A [str], a [bytes]
    and a [numpy.bytes_] object all carry a sequence of bytes and differ
    in type.  [PBytes] is an object whose type is exactly [bytes], as h5py
    returns for a variable-length string; [PNpBytes] is a [numpy.bytes_],
    as numpy and h5py return for a fixed-length byte string and for the
    elements of an array of them.  [numpy.bytes_] is a subclass of
    [bytes]: such an object has [decode()], and [type(v) == bytes] is
    false of it.  [PArray] is a [numpy.ndarray] with the given elements,
    [PObj] an instance of any other class, named by the text [type(v)]
    shows for it. *)
Inductive pyval :=
| PNone
| PBool (b : bool)
| PInt (n : Z)
| PStr (s : string)
| PBytes (b : string)
| PNpBytes (b : string)
| PList (xs : list pyval)
| PArray (xs : list pyval)
| PDict (items : list (string * pyval))
| PObj (cls : string).

(** A node of an open HDF file: a group with its named members, in the
    order in which [keys()] yields them, or a dataset holding the value
    that [fh[k][()]] returns. *)
Inductive node :=
| Group (entries : list (string * node))
| Dataset (raw : pyval).

(** The result of a call: a returned value or a raised exception with its
    message. *)
Inductive outcome (A : Type) :=
| Ret (a : A)
| Exc (e : string).
Arguments Ret {A} a.
Arguments Exc {A} e.

(** A file on disk. *)
Inductive file :=
| HdfFile (root : list (string * node))
| TextFile (content : string).

(** What the module prints, one constructor per [print] call of the source
    (the elapsed time of line 181 is not modelled). *)
Inductive line :=
| FailedDataset (k ty e : string)   (* line 155 *)
| ShowTree (root_data : pyval)      (* line 177 *)
| WroteFile                         (* line 181 *)
| FailedHdfWrite (exception_str : string)  (* line 185 *)
| FailedJsonBackup (e : string)     (* line 198 *)
| FailedHdfRead (e : string).       (* line 245 *)

Record world := mkWorld {
  files : gmap string file;
  stdout : list line
}.

Definition print (l : line) (w : world) : world :=
  mkWorld (files w) (stdout w ++ [l]).

(** The line is the one of line 155, about a dataset that failed. *)
Definition is_detail (l : line) : bool :=
  match l with
  | FailedDataset _ _ _ => true
  | _ => false
  end.

Definition put_file (path : string) (f : file) (w : world) : world :=
  mkWorld (<[path := f]> (files w)) (stdout w).

(** [type(v).__name__] and the text of [type(v)]. *)
Definition py_type_name (v : pyval) : string :=
  match v with
  | PNone => "NoneType"
  | PBool _ => "bool"
  | PInt _ => "int"
  | PStr _ => "str"
  | PBytes _ => "bytes"
  | PNpBytes _ => "numpy.bytes_"
  | PList _ => "list"
  | PArray _ => "numpy.ndarray"
  | PDict _ => "dict"
  | PObj cls => cls
  end.

Definition py_type (v : pyval) : string :=
  "<class '" +:+ py_type_name v +:+ "'>".

(** [type(v) == dict] *)
Definition is_dict (v : pyval) : bool :=
  match v with PDict _ => true | _ => false end.

(** [d[k] = v] on a dictionary kept in insertion order. *)
Fixpoint dict_set (k : string) (v : pyval) (d : list (string * pyval))
  : list (string * pyval) :=
  match d with
  | [] => [(k, v)]
  | (k', v') :: d' =>
      if decide (k = k') then (k, v) :: d' else (k', v') :: dict_set k v d'
  end.

(** [s[:-3]] *)
Definition drop_last3 (s : string) : string :=
  String.substring 0 (String.length s - 3) s.

(** Induction over the nesting of dictionaries. *)
Fixpoint pyval_dict_ind (P : pyval → Prop)
    (Hleaf : ∀ v, is_dict v = false → P v)
    (Hdict : ∀ items, Forall (λ kv, P kv.2) items → P (PDict items))
    (v : pyval) {struct v} : P v :=
  match v with
  | PDict items =>
      Hdict items
        ((fix go (items : list (string * pyval)) : Forall (λ kv, P kv.2) items :=
            match items with
            | [] => List.Forall_nil _
            | kv :: rest =>
                @List.Forall_cons _ _ kv rest (pyval_dict_ind P Hleaf Hdict kv.2) (go rest)
            end) items)
  | PNone => Hleaf PNone eq_refl
  | PBool b => Hleaf (PBool b) eq_refl
  | PInt n => Hleaf (PInt n) eq_refl
  | PStr s => Hleaf (PStr s) eq_refl
  | PBytes b => Hleaf (PBytes b) eq_refl
  | PNpBytes b => Hleaf (PNpBytes b) eq_refl
  | PList xs => Hleaf (PList xs) eq_refl
  | PArray xs => Hleaf (PArray xs) eq_refl
  | PObj cls => Hleaf (PObj cls) eq_refl
  end.

(** Induction over the nesting of groups. *)
Fixpoint node_group_ind (P : node → Prop)
    (Hdata : ∀ raw, P (Dataset raw))
    (Hgroup : ∀ entries, Forall (λ e, P e.2) entries → P (Group entries))
    (nd : node) {struct nd} : P nd :=
  match nd with
  | Dataset raw => Hdata raw
  | Group entries =>
      Hgroup entries
        ((fix go (entries : list (string * node)) : Forall (λ e, P e.2) entries :=
            match entries with
            | [] => List.Forall_nil _
            | e :: rest =>
                @List.Forall_cons _ _ e rest (node_group_ind P Hdata Hgroup e.2) (go rest)
            end) entries)
  end.

(** *** The libraries the module calls

    What h5py, numpy, [open], [json.dumps] and [bytes.decode] do is not
    part of the module: the model takes it as parameters. *)

(** What [create_dataset(k, data=v)] makes of the value [v]: h5py stores
    it, [fh[k][()]] returning [raw] later on; or it raises before anything
    is created (a value it has no type for); or it raises after the
    dataset has been created (a value it cannot write), and the dataset
    stays in the file, [fh[k][()]] returning [raw]. *)
Inductive h5_result :=
| Stored (raw : pyval)
| Refused (e : string)
| Broken (e : string) (raw : pyval).

(** What h5py does with the key [k] of a new object in a group whose
    members are [fh].  It reads [k] as a path: a key without a slash names
    a member of the group itself, a key with slashes names a member of a
    group further down.
    - [h5_parent k fh] is the first step of [create_dataset]: the groups
      on the way to the name are made where they are missing
      ([require_group]).  The result is the message of the exception, or
      the members of the group afterwards ([fh] itself when [k] has no
      slash).
    - [h5_link k fh] creates the object and links it: the message of the
      exception, or the members of the group once the object [nd] is in
      place, as a function of [nd].  For [create_group] this step makes the
      groups on the way as well.
    Where a new member stands among the others is the order of [keys()],
    which is h5py's to choose (it is the order of the names, not of
    creation).  A key that starts with a slash is a path from the root of
    the file; in a sub-group it leaves the group, and this signature does
    not cover it. *)
Class Linking := {
  h5_parent : string → list (string * node) → string + list (string * node);
  h5_link :
    string → list (string * node) → string + (node → list (string * node))
}.

(** [np_array xs]: the elements of the array that [numpy.array(xs)] makes
    of the list [xs], as indexing and iteration yield them, or the message
    of the exception.  numpy chooses one element type for the array, so
    the elements need not be those of [xs]: a list of [bytes] becomes an
    array whose elements are [numpy.bytes_]. *)
Class Numpy :=
  np_array : list pyval → string + list pyval.

(** ** [dict_to_hdf] and [hdf_to_dict] (lines 122-249) *)

Section Hdf.

(** The other parameters:
    - [h5_dataset v]: what [create_dataset(k, data=v)] makes of the value
      [v], see [h5_result];
    - [open_error path]: the message of the error raised when [path] cannot
      be created or truncated for writing ([None] when it can);
    - [json_dumps v indent]: [json.dumps(v, indent=indent)], the message of
      the exception or the text;
    - [bytes_decode b]: [b.decode()], the message of the exception or the
      text. *)
Variable h5_dataset : pyval → h5_result.
Context `{!Linking}.
Variable open_error : string → option string.
Variable json_dumps : pyval → nat → string + string.
Variable bytes_decode : string → string + string.
Context `{!Numpy}.

(** [fh.create_group(k)]: the exception, or what the members of [fh] are
    once the new group, reached as [fh[k]], holds the members given. *)
Definition create_group (k : string) (fh : list (string * node))
  : string + (list (string * node) → list (string * node)) :=
  match h5_link k fh with
  | inl e => inl e
  | inr put => inr (λ sub, put (Group sub))
  end.

(** [fh.create_dataset(k, data=v)]: the message of the exception, if one
    is raised, and the members of [fh] afterwards.  h5py makes the groups
    on the way to the name, finds a type for the value, creates the
    dataset, and writes the value; what the steps before the failing one
    have made stays in the file. *)
Definition create_dataset (k : string) (v : pyval) (fh : list (string * node))
  : option string * list (string * node) :=
  match h5_parent k fh with
  | inl e => (Some e, fh)
  | inr fh1 =>
      match h5_dataset v with
      | Refused e => (Some e, fh1)
      | Stored raw =>
          match h5_link k fh1 with
          | inl e => (Some e, fh1)
          | inr put => (None, put (Dataset raw))
          end
      | Broken e raw =>
          match h5_link k fh1 with
          | inl e' => (Some e', fh1)
          | inr put => (Some e, put (Dataset raw))
          end
      end
  end.

(** *** The writer *)

(** The [for k, v in level_data.items()] loop of [write_level] (lines
    137-157) over the items still to visit.  [rec v] stands for the
    recursive call [write_level(fh[k], v)] on the group just created, which
    is empty: the source passes no [show_detail] there and drops the value
    the call returns; an exception it raises propagates.  The result is
    the outcome of the loop, the members of [fh] afterwards, and the lines
    printed. *)
Fixpoint write_items
    (rec : pyval → outcome bool * list (string * node) * list line)
    (show_detail : bool) (items : list (string * pyval))
    (fh : list (string * node)) (out : list line)
  : outcome bool * list (string * node) * list line :=
  match items with
  | [] => (Ret true, fh, out)
  | (k, v) :: rest =>
      if is_dict v then
        match create_group k fh with
        | inl e => (Exc e, fh, out)
        | inr put =>
            let '(r, sub, out1) := rec v in
            let fh2 := put sub in
            match r with
            | Exc e => (Exc e, fh2, out ++ out1)
            | Ret _ => write_items rec show_detail rest fh2 (out ++ out1)
            end
        end
      else
        match create_dataset k v fh with
        | (Some e, fh1) =>
            (Ret false, fh1,
             if show_detail then out ++ [FailedDataset k (py_type v) e] else out)
        | (None, fh1) => write_items rec show_detail rest fh1 out
        end
  end.

(** [write_level(fh, level_data, show_detail)] *)
Fixpoint write_level (fh : list (string * node)) (level_data : pyval)
    (show_detail : bool) {struct level_data}
  : outcome bool * list (string * node) * list line :=
  match level_data with
  | PDict items =>
      write_items (λ v, write_level [] v false) show_detail items fh []
  | _ =>
      (Exc ("'" +:+ py_type_name level_data +:+ "' object has no attribute 'items'"),
       fh, [])
  end.

(** Lines 194-196: [open(save_file_json, "w")] creates the file, then
    [json.dumps(root_data, indent=4)] is evaluated and written. *)
Definition write_json (save_file_json : string) (root_data : pyval) (w : world)
  : (string + unit) * world :=
  match open_error save_file_json with
  | Some e => (inl e, w)
  | None =>
      match json_dumps root_data 4 with
      | inl e => (inl e, put_file save_file_json (TextFile "") w)
      | inr text => (inr (), put_file save_file_json (TextFile text) w)
      end
  end.

(** [dict_to_hdf(root_data, save_file, use_json_backup, show_detail)] *)
Definition dict_to_hdf (root_data : pyval) (save_file : string)
    (use_json_backup show_detail : bool) (w : world) : outcome bool * world :=
  match open_error save_file with
  | Some e => (Exc e, w)
  | None =>
      let '(r, root, detail) := write_level [] root_data show_detail in
      let w1 := mkWorld (files w) (stdout w ++ detail) in
      let '(hdf_successful, exception_str, w2) :=
        match r with
        | Ret true => (true, "", w1)
        | Ret false => (false, "Set show_detail to true for details", w1)
        | Exc e => (false, e, print (ShowTree root_data) w1)
        end in
      let w3 := put_file save_file (HdfFile root) w2 in
      if hdf_successful then (Ret true, print WroteFile w3)
      else
        let w4 := print (FailedHdfWrite exception_str) w3 in
        if use_json_backup then
          let save_file_json := drop_last3 save_file +:+ ".json" in
          match write_json save_file_json root_data w4 with
          | (inl e, w5) => (Ret false, print (FailedJsonBackup e) w5)
          | (inr _, w5) => (Ret true, w5)
          end
        else (Ret true, w4)
  end.

(** *** The reader *)

(** [val.decode()]: a [bytes] and a [numpy.bytes_] object have it. *)
Definition py_decode (val : pyval) : string + pyval :=
  match val with
  | PBytes b | PNpBytes b =>
      match bytes_decode b with
      | inl e => inl e
      | inr s => inr (PStr s)
      end
  | _ => inl ("'" +:+ py_type_name val +:+ "' object has no attribute 'decode'")
  end.

(** Lines 231-232: every element replaced by its decoding, in order. *)
Fixpoint decode_elements (xs : list pyval) : string + list pyval :=
  match xs with
  | [] => inr []
  | val :: rest =>
      match py_decode val with
      | inl e => inl e
      | inr s =>
          match decode_elements rest with
          | inl e => inl e
          | inr rest' => inr (s :: rest')
          end
      end
  end.

(** Lines 223-228: the list/array conversion and the flag [is_list_type];
    [list(a)] holds the elements of the array [a], [numpy.array(l)] what
    numpy makes of the list [l]. *)
Definition convert_sequence (to_lists : bool) (raw : pyval)
  : string + pyval * bool :=
  match raw with
  | PArray xs => if to_lists then inr (PList xs, true) else inr (raw, false)
  | PList xs =>
      if negb to_lists then
        match np_array xs with
        | inl e => inl e
        | inr ys => inr (PArray ys, true)
        end
      else inr (raw, false)
  | _ => inr (raw, false)
  end.

(** [type(v[0]) == bytes] with [len(v) > 0] for a list or an array: the
    first element is of type [bytes] itself. *)
Definition starts_with_bytes (v : pyval) : bool :=
  match v with
  | PList (PBytes _ :: _) | PArray (PBytes _ :: _) => true
  | _ => false
  end.

(** Lines 218-235: the value stored under [k] for a dataset whose
    [fh[k][()]] is [raw].  (An array whose first element is of type
    [bytes] holds Python objects, so the assignment of line 232 puts the
    text in the place of the element, as it does in a list.) *)
Definition read_dataset (to_lists decode_strs : bool) (raw : pyval)
  : string + pyval :=
  match convert_sequence to_lists raw with
  | inl e => inl e
  | inr (v, is_list_type) =>
      if is_list_type && starts_with_bytes v then
        match v with
        | PList xs =>
            match decode_elements xs with
            | inl e => inl e
            | inr xs' => inr (PList xs')
            end
        | PArray xs =>
            match decode_elements xs with
            | inl e => inl e
            | inr xs' => inr (PArray xs')
            end
        | _ => inr v
        end
      else if decode_strs && (if v is PBytes _ then true else false)
      then py_decode v
      else inr v
  end.

(** The [for k in fh.keys()] loop of [read_level] (lines 212-235);
    [rec nd] stands for the recursive call [read_level(fh[k])]. *)
Fixpoint read_entries
    (rec : node → string + list (string * pyval))
    (to_lists decode_strs : bool) (entries : list (string * node))
    (out_data : list (string * pyval))
  : string + list (string * pyval) :=
  match entries with
  | [] => inr out_data
  | (k, nd) :: rest =>
      match nd with
      | Group _ =>
          match rec nd with
          | inl e => inl e
          | inr sub =>
              read_entries rec to_lists decode_strs rest
                (dict_set k (PDict sub) out_data)
          end
      | Dataset raw =>
          match read_dataset to_lists decode_strs raw with
          | inl e => inl e
          | inr v =>
              read_entries rec to_lists decode_strs rest (dict_set k v out_data)
          end
      end
  end.

(** [read_level(fh)] *)
Fixpoint read_level (to_lists decode_strs : bool) (fh : node) {struct fh}
  : string + list (string * pyval) :=
  match fh with
  | Group entries =>
      read_entries (read_level to_lists decode_strs) to_lists decode_strs
        entries []
  | Dataset _ => inl "'Dataset' object has no attribute 'keys'"
  end.

(** [hdf_to_dict(filename, to_lists, decode_strs)]: the dictionary, or
    [None] for Python's [None]. *)
Definition hdf_to_dict (filename : string) (to_lists decode_strs : bool)
    (w : world) : outcome (option (list (string * pyval))) * world :=
  match files w !! filename with
  | Some (HdfFile root) =>
      match read_level to_lists decode_strs (Group root) with
      | inr root_data => (Ret (Some root_data), w)
      | inl e => (Ret None, print (FailedHdfRead e) w)
      end
  | Some (TextFile _) => (Exc "Unable to open file (file signature not found)", w)
  | None => (Exc "Unable to open file (No such file or directory)", w)
  end.

End Hdf.

(** ** Notions used by the statements *)

(** *** Keys that are names *)

Definition is_slash (c : Ascii.ascii) : bool :=
  bool_decide (Ascii.nat_of_ascii c = 47).

(** The key is the name of a link: it is not empty, it is neither of the
    names ["."] and [".."], and it has no slash and no NUL character in
    it.  h5py reads such a key as the name of a member of the group at
    hand; other keys it reads as paths, or refuses. *)
Definition plain_name (k : string) : bool :=
  negb (bool_decide (k = "")) && negb (bool_decide (k = ".")) &&
  negb (bool_decide (k = "..")) &&
  forallb (λ c, negb (is_slash c) &&
                negb (bool_decide (Ascii.nat_of_ascii c = 0)))
          (String.list_ascii_of_string k).

(** Every key of the dictionary, at every level, is the name of a link. *)
Fixpoint plain_keys (v : pyval) : bool :=
  match v with
  | PDict items => forallb (λ kv, plain_name kv.1 && plain_keys kv.2) items
  | _ => true
  end.

(** What h5py does with a key that is the name of a link: there are no
    groups to make on the way; it raises if the group has a member of that
    name, and otherwise the new object becomes a member under that name,
    at some place among the others. *)
Definition links_names `{!Linking} : Prop :=
  ∀ k fh, plain_name k = true →
    h5_parent k fh = inr fh ∧
    match h5_link k fh with
    | inl _ => k ∈ fh.*1
    | inr put => (k ∉ fh.*1) ∧ ∀ nd, put nd ≡ₚ fh ++ [(k, nd)]
    end.

Section Notions.

Variable h5_dataset : pyval → h5_result.
Context `{!Linking}.
Variable open_error : string → option string.
Variable json_dumps : pyval → nat → string + string.
Variable bytes_decode : string → string + string.
Context `{!Numpy}.

(** [hdf_successful] at line 180: [write_level] returned [True]. *)
Definition primary_ok (root_data : pyval) (show_detail : bool) : bool :=
  match (write_level h5_dataset [] root_data show_detail).1.1 with
  | Ret true => true
  | _ => false
  end.

(** The [try] block of lines 194-196 ends without an exception. *)
Definition json_ok (save_file : string) (root_data : pyval) : bool :=
  match open_error (drop_last3 save_file +:+ ".json") with
  | Some _ => false
  | None =>
      match json_dumps root_data 4 with
      | inr _ => true
      | inl _ => false
      end
  end.

(** *** Decoding *)

(** [x] is a byte string with the bytes [b], of type [bytes] or
    [numpy.bytes_]. *)
Definition bytes_of (x : pyval) (b : string) : Prop :=
  x = PBytes b ∨ x = PNpBytes b.

(** [y] is the text that the byte string [x] decodes to. *)
Definition decoded (x y : pyval) : Prop :=
  ∃ b s, bytes_of x b ∧ bytes_decode b = inr s ∧ y = PStr s.

(** [x] is a byte string that decodes. *)
Definition decodes (x : pyval) : Prop :=
  ∃ b s, bytes_of x b ∧ bytes_decode b = inr s.

(** The sequence type asked for by [to_lists]. *)
Definition seq_form (to_lists : bool) (xs : list pyval) : pyval :=
  if to_lists then PList xs else PArray xs.

(** *** Trees with representable leaves *)

(** A Tree: dictionaries with unique keys, down to leaves that satisfy [P]. *)
Inductive tree_of (P : pyval → Prop) : pyval → Prop :=
| tree_leaf v : is_dict v = false → P v → tree_of P v
| tree_dict items :
    NoDup items.*1 → Forall (λ kv, tree_of P kv.2) items →
    tree_of P (PDict items).

(** [create_dataset] takes the value. *)
Definition accepts (v : pyval) : bool :=
  match h5_dataset v with
  | Stored _ => true
  | _ => false
  end.

(** The container holds a scalar [x] as [y]: [x] itself, or the bytes of
    its encoding when [x] is text, or the same bytes as a [numpy.bytes_]
    when [x] is a byte string. *)
Definition item_stored (x y : pyval) : Prop :=
  y = x ∨
  (∃ s b, x = PStr s ∧ y = PBytes b ∧ bytes_decode b = inr s) ∨
  (∃ b, x = PBytes b ∧ y = PNpBytes b).

(** The container holds the leaf [v] as [raw]: a sequence as an array of
    its stored elements, anything else as a stored scalar. *)
Definition stored_as (v raw : pyval) : Prop :=
  match v with
  | PList xs | PArray xs => ∃ ys, raw = PArray ys ∧ Forall2 item_stored xs ys
  | _ => item_stored v raw
  end.

(** The byte strings the reader decodes in [raw] do decode: a value of
    type [bytes] is valid text, and an array that starts with a value of
    type [bytes] holds nothing but byte strings that are valid text. *)
Definition decodable (raw : pyval) : Prop :=
  match raw with
  | PBytes b => ∃ s, bytes_decode b = inr s
  | PArray ys => starts_with_bytes raw = true → Forall decodes ys
  | _ => True
  end.

(** The leaf [v] is adapter-representable: [create_dataset] takes it and
    the dataset reads back as a stored form of [v] that is [decodable]. *)
Definition representable (v : pyval) : Prop :=
  ∃ raw, h5_dataset v = Stored raw ∧ stored_as v raw ∧ decodable raw.

(** *** Equality up to sequence type and text decoding *)

(** The scalars [x] and [y] are equal; or both are byte strings with the
    same bytes, of type [bytes] or [numpy.bytes_] (Python's [==] holds of
    them); or one is a byte string and the other the text it decodes
    to. *)
Definition item_equiv (x y : pyval) : Prop :=
  y = x ∨
  (∃ b, bytes_of x b ∧ bytes_of y b) ∨
  ∃ b s, bytes_decode b = inr s ∧
         ((bytes_of x b ∧ y = PStr s) ∨ (x = PStr s ∧ bytes_of y b)).

(** The leaf [r] read back for the written leaf [v]: a sequence comes in
    the type [to_lists] asks for, with elements equal up to decoding; a
    byte string comes back as a [numpy.bytes_], which the reader leaves
    alone, or as [bytes], decoded when [decode_strs] is set; text comes
    as text, or still as its bytes when [decode_strs] is not set. *)
Definition leaf_norm (to_lists decode_strs : bool) (v r : pyval) : Prop :=
  match v with
  | PList xs | PArray xs =>
      ∃ ys, r = seq_form to_lists ys ∧ Forall2 item_equiv xs ys
  | PBytes b =>
      r = PNpBytes b ∨
      if decode_strs then ∃ s, bytes_decode b = inr s ∧ r = PStr s else r = v
  | PStr s =>
      r = v ∨ (decode_strs = false ∧ ∃ b, bytes_decode b = inr s ∧ r = PBytes b)
  | _ => r = v
  end.

(** The same keys in the same nesting, with leaves related by
    [leaf_norm].  The keys of a dictionary read from a file come in the
    order of [keys()]; two dictionaries with the same items in another
    order are equal in Python, so the order is left open: [read] is the
    dictionary read, put in the order of the one written. *)
Inductive tree_norm (to_lists decode_strs : bool) : pyval → pyval → Prop :=
| norm_leaf v r :
    is_dict v = false → leaf_norm to_lists decode_strs v r →
    tree_norm to_lists decode_strs v r
| norm_dict items items' read :
    read ≡ₚ items' →
    Forall2 (λ kv kv', kv.1 = kv'.1 ∧
                       tree_norm to_lists decode_strs kv.2 kv'.2) items read →
    tree_norm to_lists decode_strs (PDict items) (PDict items').

(** *** What a container holds and what a dictionary holds *)

(** The node holds the value: a dataset holds a leaf that
    [create_dataset] has stored, a group holds a dictionary if its members
    are, in some order, nodes that hold the values of the dictionary under
    their keys. *)
Inductive holds : pyval → node → Prop :=
| holds_leaf v raw :
    is_dict v = false → h5_dataset v = Stored raw → holds v (Dataset raw)
| holds_dict items entries placed :
    placed ≡ₚ entries →
    Forall2 (λ kv e, kv.1 = e.1 ∧ holds kv.2 e.2) items placed →
    holds (PDict items) (Group entries).

(** The values of the datasets of a container, in the order in which
    [read_level] comes to them. *)
Fixpoint datasets (nd : node) : list pyval :=
  match nd with
  | Dataset raw => [raw]
  | Group entries => concat ((λ e, datasets e.2) <$> entries)
  end.

(** The leaves of a value: what is left when the dictionaries are opened. *)
Fixpoint leaves (v : pyval) : list pyval :=
  match v with
  | PDict items => concat ((λ kv, leaves kv.2) <$> items)
  | _ => [v]
  end.

(** The type of [v] is one the flags allow for a value read from a
    dataset: no array with [to_lists], no list without it, and no value of
    type [bytes] with [decode_strs] (a [numpy.bytes_] is allowed: the
    reader does not take it for [bytes]). *)
Definition as_requested (to_lists decode_strs : bool) (v : pyval) : Prop :=
  match v with
  | PArray _ => to_lists = false
  | PList _ => to_lists = true
  | PBytes _ => decode_strs = false
  | _ => True
  end.

(** The error of the first dataset of [raws] that does not read. *)
Fixpoint first_error (to_lists decode_strs : bool) (raws : list pyval)
  : option string :=
  match raws with
  | [] => None
  | raw :: rest =>
      match read_dataset bytes_decode to_lists decode_strs raw with
      | inl e => Some e
      | inr _ => first_error to_lists decode_strs rest
      end
  end.

End Notions.

(** ** Concrete libraries for closed examples *)

Module Demo.

(** *** h5py *)

(** A group keeps its members in the order of their names, compared byte
    by byte. *)
Fixpoint insert_by_name (k : string) (nd : node) (fh : list (string * node))
  : list (string * node) :=
  match fh with
  | [] => [(k, nd)]
  | (k', nd') :: fh' =>
      if String.ltb k k' then (k, nd) :: fh
      else (k', nd') :: insert_by_name k nd fh'
  end.

(** The member of the name [k], and the members with another node under
    that name. *)
Fixpoint member (k : string) (fh : list (string * node)) : option node :=
  match fh with
  | [] => None
  | (k', nd) :: fh' => if decide (k = k') then Some nd else member k fh'
  end.

Fixpoint set_member (k : string) (nd : node) (fh : list (string * node))
  : list (string * node) :=
  match fh with
  | [] => []
  | (k', nd') :: fh' =>
      if decide (k = k') then (k, nd) :: fh'
      else (k', nd') :: set_member k nd fh'
  end.

(** The parts of a key between its slashes, and the names of the path it
    stands for: HDF5 skips the empty parts and the name ["."]. *)
Fixpoint path_parts (k : string) : list string :=
  match k with
  | EmptyString => [EmptyString]
  | String c rest =>
      if is_slash c then EmptyString :: path_parts rest
      else
        match path_parts rest with
        | part :: parts => String c part :: parts
        | [] => [String c EmptyString]
        end
  end.

Definition path_names (k : string) : list string :=
  filter (λ n, n ≠ EmptyString ∧ n ≠ ".") (path_parts k).

(** [require_group] along the names of a path: the groups are made where
    they are missing. *)
Fixpoint make_groups (names : list string) (fh : list (string * node))
  : string + list (string * node) :=
  match names with
  | [] => inr fh
  | k :: rest =>
      match member k fh with
      | None =>
          match make_groups rest [] with
          | inl e => inl e
          | inr sub => inr (insert_by_name k (Group sub) fh)
          end
      | Some (Group sub) =>
          match make_groups rest sub with
          | inl e => inl e
          | inr sub' => inr (set_member k (Group sub') fh)
          end
      | Some (Dataset _) => inl "Incompatible object (Dataset) already exists"
      end
  end.

(** The object linked at the end of a path, the groups on the way being
    made where they are missing. *)
Fixpoint link_at (names : list string) (fh : list (string * node))
  : string + (node → list (string * node)) :=
  match names with
  | [] => inl "Unable to create link (name already exists)"
  | k :: rest =>
      match rest with
      | [] =>
          if bool_decide (k ∈ fh.*1)
          then inl "Unable to create link (name already exists)"
          else inr (λ nd, insert_by_name k nd fh)
      | _ :: _ =>
          match member k fh with
          | None =>
              match link_at rest [] with
              | inl e => inl e
              | inr put => inr (λ nd, insert_by_name k (Group (put nd)) fh)
              end
          | Some (Group sub) =>
              match link_at rest sub with
              | inl e => inl e
              | inr put => inr (λ nd, set_member k (Group (put nd)) fh)
              end
          | Some (Dataset _) => inl "Unable to create link (component not found)"
          end
      end
  end.

(** h5py on keys that are names, or names joined by slashes.  (On a key
    with a slash in front, a slash at its end or the name [".."] it is an
    approximation; the examples do not go there.) *)
#[export] Instance link_by_path : Linking := {|
  h5_parent k fh := make_groups (removelast (path_names k)) fh;
  h5_link k fh := link_at (path_names k) fh
|}.

(** The kinds of values that h5py stores in an array of one type. *)
Definition is_int64 (v : pyval) : bool :=
  match v with
  | PInt n => bool_decide (- 2 ^ 63 ≤ n < 2 ^ 63)%Z
  | _ => false
  end.

Definition fits_64_bits (n : Z) : bool :=
  bool_decide (- 2 ^ 63 ≤ n < 2 ^ 64)%Z.

Definition is_byte_string (v : pyval) : bool :=
  match v with
  | PBytes _ | PNpBytes _ => true
  | _ => false
  end.

(** The string has no NUL character. *)
Definition no_nul (s : string) : bool :=
  forallb (λ c, negb (bool_decide (Ascii.nat_of_ascii c = 0)))
          (String.list_ascii_of_string s).

(** An element of a list as the array made of the list holds it: a byte
    string becomes a [numpy.bytes_]. *)
Definition h5_item (v : pyval) : pyval :=
  match v with
  | PBytes b => PNpBytes b
  | _ => v
  end.

Definition no_type : string :=
  "Object dtype dtype('O') has no native HDF5 equivalent".

(** A string of variable length: written after the dataset has been
    created, and refused then if it has a NUL character. *)
Definition h5_vlen (s : string) : h5_result :=
  if no_nul s then Stored (PBytes s)
  else Broken "VLEN strings do not support embedded NULLs" (PBytes EmptyString).

(** h5py on the values of the examples.  [None], dictionaries and foreign
    objects have no HDF5 type.  A boolean and an integer that fits 64 bits
    come back as they are.  Text and a value of type [bytes] are stored
    with a variable length and come back as [bytes]: the encoding of the
    text, the bytes themselves.  A [numpy.bytes_] is stored with a fixed
    length and comes back as one.  A list or an array of integers or of
    byte strings comes back as an array, its byte strings as
    [numpy.bytes_].  What else there is (lists of text, mixed and nested
    sequences, integers beyond 64 bits) this adapter refuses, all with the
    message h5py has for a value without a type; the examples do not go
    there. *)
Definition h5_plain (v : pyval) : h5_result :=
  match v with
  | PNone => Refused "One of data, shape or dtype must be specified"
  | PObj _ | PDict _ => Refused no_type
  | PBool _ => Stored v
  | PInt n => if fits_64_bits n then Stored v else Refused no_type
  | PStr s => h5_vlen s
  | PBytes b => h5_vlen b
  | PNpBytes b => Stored v
  | PList xs =>
      if forallb is_int64 xs || forallb is_byte_string xs
      then Stored (PArray (h5_item <$> xs))
      else Refused no_type
  | PArray xs =>
      if forallb is_int64 xs
         || forallb (λ x, if x is PNpBytes _ then true else false) xs
      then Stored v
      else Refused no_type
  end.

(** Every path can be opened for writing. *)
Definition open_ok (path : string) : option string := None.

(** *** numpy *)

(** [numpy.array] on a list of integers, of text or of byte strings: byte
    strings become [numpy.bytes_], the others stay.  (On other lists it is
    not numpy; the examples do not go there.) *)
#[export] Instance np_flat : Numpy := λ xs,
  inr ((λ x, if x is PBytes b then PNpBytes b else x) <$> xs).

(** *** [bytes.decode] *)

(** Strict UTF-8: the well-formed byte sequences of the Unicode standard. *)
Definition cont (b : nat) : bool := (128 <=? b) && (b <=? 191).

Fixpoint utf8_ok (l : list nat) : bool :=
  match l with
  | [] => true
  | b0 :: t0 =>
      if b0 <? 128 then utf8_ok t0 else
      match t0 with
      | [] => false
      | b1 :: t1 =>
          if (194 <=? b0) && (b0 <=? 223) then cont b1 && utf8_ok t1 else
          match t1 with
          | [] => false
          | b2 :: t2 =>
              if (224 <=? b0) && (b0 <=? 239) then
                (if b0 =? 224 then (160 <=? b1) && (b1 <=? 191)
                 else if b0 =? 237 then (128 <=? b1) && (b1 <=? 159)
                 else cont b1)
                && cont b2 && utf8_ok t2
              else
              match t2 with
              | [] => false
              | b3 :: t3 =>
                  (240 <=? b0) && (b0 <=? 244) &&
                  (if b0 =? 240 then (144 <=? b1) && (b1 <=? 191)
                   else if b0 =? 244 then (128 <=? b1) && (b1 <=? 143)
                   else cont b1)
                  && cont b2 && cont b3 && utf8_ok t3
              end
          end
      end
  end.

(** [bytes.decode()] with text represented by its UTF-8 encoding. *)
Definition utf8_decode (b : string) : string + string :=
  if utf8_ok (Ascii.nat_of_ascii <$> String.list_ascii_of_string b) then inr b
  else inl "'utf-8' codec can't decode bytes".

(** *** [json.dumps] *)

(** [json.dumps(v, indent=n)] for [None], booleans, integers, strings
    (of printable ASCII), lists and dictionaries; other objects are not
    serializable. *)
Definition dquote : string := String (Ascii.ascii_of_nat 34) "".
Definition backslash : string := String (Ascii.ascii_of_nat 92) "".
Definition newline : string := String (Ascii.ascii_of_nat 10) "".

Fixpoint json_escape (s : string) : string :=
  match s with
  | EmptyString => ""
  | String c s' =>
      (if decide (Ascii.nat_of_ascii c = 34) then backslash +:+ dquote
       else if decide (Ascii.nat_of_ascii c = 92) then backslash +:+ backslash
       else String c "") +:+ json_escape s'
  end.

Fixpoint pad (n : nat) : string :=
  match n with
  | O => ""
  | S n' => " " +:+ pad n'
  end.

(** The rendered members of a list or dictionary, joined by [sep]. *)
Fixpoint json_join (sep : string) (parts : list (string + string))
  : string + string :=
  match parts with
  | [] => inr ""
  | p :: rest =>
      match p, json_join sep rest with
      | inl e, _ => inl e
      | _, inl e => inl e
      | inr t, inr ts =>
          inr (match rest with [] => t | _ => t +:+ sep +:+ ts end)
      end
  end.

Definition json_block (opening closing : string) (indent level : nat)
    (parts : list (string + string)) : string + string :=
  match parts with
  | [] => inr (opening +:+ closing)
  | _ =>
      match json_join ("," +:+ newline +:+ pad (indent * S level)) parts with
      | inl e => inl e
      | inr body =>
          inr (opening +:+ newline +:+ pad (indent * S level) +:+ body
               +:+ newline +:+ pad (indent * level) +:+ closing)
      end
  end.

Fixpoint json_value (indent level : nat) (v : pyval) : string + string :=
  match v with
  | PNone => inr "null"
  | PBool b => inr (if b then "true" else "false")
  | PInt n => inr (pretty n)
  | PStr s => inr (dquote +:+ json_escape s +:+ dquote)
  | PList xs =>
      json_block "[" "]" indent level (json_value indent (S level) <$> xs)
  | PDict items =>
      json_block "{" "}" indent level
        ((λ kv : string * pyval,
            match json_value indent (S level) kv.2 with
            | inl e => inl e
            | inr t => inr (dquote +:+ json_escape kv.1 +:+ dquote +:+ ": " +:+ t)
            end) <$> items)
  | PBytes _ => inl "Object of type bytes is not JSON serializable"
  | PNpBytes _ => inl "Object of type bytes_ is not JSON serializable"
  | PArray _ => inl "Object of type ndarray is not JSON serializable"
  | PObj cls => inl ("Object of type " +:+ cls +:+ " is not JSON serializable")
  end.

Definition json_text (v : pyval) (indent : nat) : string + string :=
  json_value indent 0 v.

(** *** Worlds and trees *)

Definition empty_world : world := mkWorld ∅ [].

(** A byte that no UTF-8 text contains. *)
Definition bad_bytes : string := String (Ascii.ascii_of_nat 255) EmptyString.

(** The tree of the specification's scenario. *)
Definition sample_tree : list (string * pyval) :=
  [("a", PDict [("b", PList [PInt 1; PInt 2; PInt 3])]); ("c", PStr "hello")].

End Demo.

(** ** [barstr] and [ensureWhitespace] (lines 27-90) *)

Module Text.
Section TextHelpers.

(** As for [parse_idx] the character type is left open; [space] is the
    character of the literal [" "]. *)
Context {char : Type} `{!EqDecision char}.
Variable space : char.

(** The [while len(s) < width] loop of [barstr] (lines 83-88), run for at
    most [fuel] iterations: [None] when the loop has not ended by then. *)
Fixpoint barstr_loop (fuel : nat) (width : Z) (bc s : list char)
    (pad_back : bool) : option (list char) :=
  if (Z.of_nat (length s) <? width)%Z then
    match fuel with
    | O => None
    | S fuel' =>
        barstr_loop fuel' width bc (if pad_back then s ++ bc else bc ++ s)
          (negb pad_back)
    end
  else Some s.

(** [barstr(text, width, bc, pad)] *)
Definition barstr (fuel : nat) (text : list char) (width : Z) (bc : list char)
    (pad : bool) : option (list char) :=
  let s := if pad then [space] ++ text ++ [space] else text in
  barstr_loop fuel width bc s false.

(** [l.index(x)]: the first position of [x], [None] for [ValueError]. *)
Fixpoint list_index (x : char) (l : list char) : option nat :=
  match l with
  | [] => None
  | y :: l' => if decide (y = x) then Some 0 else S <$> list_index x l'
  end.

(** [s[i] in whitespace_list] for an index [i] inside [s]. *)
Definition is_space_at (whitespace_list s : list char) (i : nat) : bool :=
  match s !! i with
  | Some c => bool_decide (c ∈ whitespace_list)
  | None => false
  end.

(** [s[:i] + pad_char + s[i:]] *)
Definition insert_at (i : nat) (pad_char s : list char) : list char :=
  take i s ++ pad_char ++ drop i s.

(** The [while True] loop of [ensureWhitespace] for one target [tc]
    (lines 39-70), run for at most [fuel] iterations. *)
Fixpoint scan_target (fuel : nat) (s : list char) (tc : char)
    (whitespace_list pad_char : list char) (start_index : nat)
  : option (list char) :=
  match list_index tc (drop start_index s) with
  | None => Some s
  | Some i =>
      match fuel with
      | O => None
      | S fuel' =>
          let idx := i + start_index in
          let start_index := idx + 1 in
          let add0 :=
            if decide (idx = 0) then false
            else if is_space_at whitespace_list s (idx - 1) then false
            else true in
          let addf :=
            if decide (length s - 1 ≤ idx) then false
            else if is_space_at whitespace_list s (idx + 1) then false
            else true in
          let s1 := if addf then insert_at (idx + 1) pad_char s else s in
          let start_index := if addf then start_index + 1 else start_index in
          let s2 := if add0 then insert_at idx pad_char s1 else s1 in
          scan_target fuel' s2 tc whitespace_list pad_char start_index
      end
  end.

(** The [for tc in targets] loop (lines 34-70) over the characters of
    [joined], each inner loop with at most [fuel] iterations. *)
Fixpoint scan_targets (fuel : nat) (s joined : list char)
    (whitespace_list pad_char : list char) : option (list char) :=
  match joined with
  | [] => Some s
  | tc :: rest =>
      match scan_target fuel s tc whitespace_list pad_char 0 with
      | None => None
      | Some s' => scan_targets fuel s' rest whitespace_list pad_char
      end
  end.

(** [joined] can be the value of ["".join(set(targets))]: the distinct
    characters of [targets], in the order the set yields them. *)
Definition joined_set (targets joined : list char) : Prop :=
  NoDup joined ∧ ∀ c, c ∈ joined ↔ c ∈ targets.

(** [ensureWhitespace(s, targets, whitespace_list, pad_char)], given the
    order [joined] in which the set of line 31 yields the targets. *)
Definition ensureWhitespace (fuel : nat) (joined : list char)
    (s targets whitespace_list pad_char : list char) : option (list char) :=
  scan_targets fuel s joined whitespace_list pad_char.

(** *** Notions for the statements *)

(** [l] repeated [n] times. *)
Fixpoint repeat_list (n : nat) (l : list char) : list char :=
  match n with
  | O => []
  | S n' => l ++ repeat_list n' l
  end.

(** What [ensureWhitespace] is to compute for the target [tc] and the
    one-character pad [p], read from left to right: [prev] is the character
    now standing before [l], if any.  A target gets [p] before it unless it
    starts the string or follows white space, and [p] after it unless it
    ends the string or white space follows. *)
Fixpoint pad_target (tc p : char) (whitespace_list : list char)
    (prev : option char) (l : list char) : list char :=
  match l with
  | [] => []
  | c :: l' =>
      if decide (c = tc) then
        (match prev with
         | Some q => if bool_decide (q ∈ whitespace_list) then [] else [p]
         | None => []
         end) ++
        tc ::
        (match l' with
         | n :: _ =>
             if bool_decide (n ∈ whitespace_list)
             then pad_target tc p whitespace_list (Some tc) l'
             else p :: pad_target tc p whitespace_list (Some p) l'
         | [] => []
         end)
      else c :: pad_target tc p whitespace_list (Some c) l'
  end.

(** Every occurrence of [tc] in [l] has white space, or the end of the
    string, on either side; [prev] is the character before [l], if any. *)
Fixpoint spaced (tc : char) (whitespace_list : list char)
    (prev : option char) (l : list char) : Prop :=
  match l with
  | [] => True
  | c :: l' =>
      (c = tc →
       match prev with Some q => q ∈ whitespace_list | None => True end ∧
       match l' with n :: _ => n ∈ whitespace_list | [] => True end) ∧
      spaced tc whitespace_list (Some c) l'
  end.

(** The neighbour [s[idx-1]] or [s[idx+1]] of a target asks for a pad:
    there is one and it is no white space ([add0] and [addf] of lines
    51-62). *)
Definition wants_pad (whitespace_list : list char) (neighbour : option char)
  : bool :=
  match neighbour with
  | Some q => negb (bool_decide (q ∈ whitespace_list))
  | None => false
  end.

(** [pad_target] for the targets of [joined], one after the other. *)
Definition pad_targets (p : char) (whitespace_list joined s : list char)
  : list char :=
  foldl (λ acc tc, pad_target tc p whitespace_list None acc) s joined.

End TextHelpers.
End Text.

(** * The theorems *)

(** ** The tokens of [parse_idx] *)

Section ParseIdxFacts.
Import Tokens.

Context {char : Type} `{!EqDecision char}.

Implicit Types (key : char → bool) (l input delims : list char).

Lemma groupby_runs key l : runs key (groupby key l).
Proof.
  induction l as [|x l IH]; simpl; [done|].
  destruct (groupby key l) as [|[k g] gs] eqn:E.
  - repeat split; auto.
  - simpl in IH. destruct IH as (Hne & Hall & Hnext & Hrest).
    destruct (Bool.eqb (key x) k) eqn:Hk.
    + apply Bool.eqb_prop in Hk. simpl. repeat split; auto.
    + simpl. repeat split; auto.
      destruct (key x), k; simpl in *; congruence.
Qed.

Lemma groupby_concat key l : concat (groupby key l).*2 = l.
Proof.
  induction l as [|x l IH]; simpl; [done|].
  destruct (groupby key l) as [|[k g] gs] eqn:E; simpl in *.
  - by rewrite <- IH.
  - destruct (Bool.eqb (key x) k); simpl; by rewrite <- IH.
Qed.

(** [groupby] opens a new group exactly where the key changes, as
    [itertools.groupby] does when read from the left. *)
Lemma groupby_cons key x l :
  groupby key (x :: l) =
  (key x, x :: take_while (λ y, Bool.eqb (key y) (key x)) l)
    :: groupby key (drop_while (λ y, Bool.eqb (key y) (key x)) l).
Proof.
  revert x. induction l as [|y l IH]; intros x; [done|].
  change (groupby key (x :: y :: l)) with
    (match groupby key (y :: l) with
     | (k, g) :: gs =>
         if Bool.eqb (key x) k then (k, x :: g) :: gs
         else (key x, [x]) :: (k, g) :: gs
     | [] => [(key x, [x])]
     end).
  rewrite (IH y). simpl take_while. simpl drop_while.
  destruct (Bool.eqb (key x) (key y)) eqn:Hxy.
  - apply Bool.eqb_prop in Hxy. rewrite <- Hxy.
    rewrite Bool.eqb_reflx. simpl. done.
  - assert (Bool.eqb (key y) (key x) = false) as ->.
    { destruct (key x), (key y); simpl in *; congruence. }
    by rewrite (IH y).
Qed.

(** *** The sections yielded by [parse_two_idx] *)

Lemma loop_bounds key gs p a b :
  runs key gs → (a, b) ∈ parse_two_idx_loop p gs →
  p ≤ a ∧ a < b ∧ b ≤ p + length (concat gs.*2) ∧
  ∀ i, a ≤ i < b → ∃ c, concat gs.*2 !! (i - p) = Some c ∧ key c = false.
Proof.
  revert p. induction gs as [|[k g] rest IH]; intros p Hruns Hin; simpl in *.
  { by apply elem_of_nil in Hin. }
  destruct Hruns as (Hne & Hall & _ & Hrest).
  assert (0 < length g) as Hlen by (destruct g; simpl; [done|lia]).
  rewrite length_app.
  assert ((a, b) ∈ parse_two_idx_loop (p + length g) rest →
    p ≤ a ∧ a < b ∧ b ≤ p + (length g + length (concat rest.*2)) ∧
    ∀ i, a ≤ i < b →
      ∃ c, (g ++ concat rest.*2) !! (i - p) = Some c ∧ key c = false) as Htail.
  { intros Hin'. destruct (IH _ Hrest Hin') as (H1 & H2 & H3 & H4).
    repeat split; [lia..|]. intros i Hi.
    destruct (H4 i Hi) as (c & Hc & Hk). exists c. split; [|done].
    rewrite lookup_app_r by lia. rewrite <- Hc. f_equal. lia. }
  destruct k; simpl in Hin; [by apply Htail|].
  apply elem_of_cons in Hin as [[= -> ->]|Hin]; [|by apply Htail].
  repeat split; [lia..|]. intros i Hi.
  destruct (lookup_lt_is_Some_2 g (i - p)) as [c Hc]; [lia|].
  exists c. split; [by rewrite lookup_app_l by lia|].
  rewrite Forall_forall in Hall. apply Hall.
  apply list_elem_of_lookup. eauto.
Qed.

Lemma loop_sorted key gs p :
  runs key gs →
  StronglySorted (λ s t : nat * nat, s.2 < t.1) (parse_two_idx_loop p gs).
Proof.
  revert p. induction gs as [|[k g] rest IH]; intros p Hruns; simpl.
  { constructor. }
  destruct Hruns as (Hne & Hall & Hnext & Hrest).
  destruct k; simpl; [by apply IH|].
  apply StronglySorted_cons. split; [|by apply IH].
  apply Forall_forall. intros [a b] Hin. simpl.
  destruct rest as [|[k' g'] rest']; [by apply elem_of_nil in Hin|].
  simpl in Hnext. subst k'. simpl in Hin.
  destruct Hrest as (Hne' & _ & _ & Hrest').
  apply (loop_bounds key) in Hin; [|done].
  assert (0 < length g') by (destruct g'; simpl; [done|lia]). lia.
Qed.

Lemma loop_cover key gs p i c :
  runs key gs → concat gs.*2 !! i = Some c → key c = false →
  ∃ a b, (a, b) ∈ parse_two_idx_loop p gs ∧ a ≤ p + i < b.
Proof.
  revert p i. induction gs as [|[k g] rest IH]; intros p i Hruns Hc Hk;
    simpl in *; [done|].
  destruct Hruns as (Hne & Hall & _ & Hrest).
  apply lookup_app_Some in Hc as [Hc|[Hge Hc]].
  - assert (k = false) as ->.
    { rewrite Forall_forall in Hall. rewrite <- Hk. symmetry. apply Hall.
      apply list_elem_of_lookup. eauto. }
    apply lookup_lt_Some in Hc. simpl.
    exists p, (p + length g). split; [apply elem_of_cons; by left|lia].
  - destruct (IH (p + length g) _ Hrest Hc Hk) as (a & b & Hin & Hab).
    exists a, b. split; [|lia].
    destruct k; simpl; [done|]. apply elem_of_cons. by right.
Qed.

Lemma slice_lookup_Some (input : list char) a b j c :
  slice input a b !! j = Some c ↔ j < b - a ∧ input !! (a + j) = Some c.
Proof.
  unfold slice. rewrite lookup_take_Some, lookup_drop. tauto.
Qed.

Lemma parse_two_idx_sections input delims a b :
  (a, b) ∈ parse_two_idx input delims →
  a < b ∧ b ≤ length input ∧
  ∀ i, a ≤ i < b → ∃ c, input !! i = Some c ∧ c ∉ delims.
Proof.
  intros Hin. unfold parse_two_idx in Hin.
  apply (loop_bounds (is_delim delims)) in Hin; [|apply groupby_runs].
  rewrite groupby_concat in Hin. destruct Hin as (_ & H1 & H2 & H3).
  repeat split; [done..|]. intros i Hi.
  destruct (H3 i Hi) as (c & Hc & Hk). exists c.
  replace (i - 0) with i in Hc by lia. split; [done|].
  unfold is_delim in Hk. by apply bool_decide_eq_false in Hk.
Qed.

(** C10: every token of [parse_idx] is the slice [input[idx:idx_end]], is
    non-empty and free of delimiter characters; the tokens come in
    strictly increasing start order with every token ending before the next
    one starts; and a position of the input lies inside some token exactly
    when its character is not a delimiter, so the tokens are the maximal
    non-delimiter runs. *)
Theorem parse_idx_tokens (input delims keep_delims : list char) :
  let out := parse_idx input delims keep_delims in
  Forall (λ t, slice input (idx t) (idx_end t) = str t ∧
               str t ≠ [] ∧
               Forall (λ c, c ∉ delims) (str t) ∧
               idx t < idx_end t ≤ length input) out ∧
  StronglySorted (λ t u, idx t < idx u ∧ idx_end t < idx u) out ∧
  ∀ p c, input !! p = Some c →
    (c ∉ delims ↔ ∃ t, t ∈ out ∧ idx t ≤ p < idx_end t).
Proof.
  simpl. unfold parse_idx. split; [|split].
  - apply Forall_forall. intros t Ht.
    apply list_elem_of_fmap in Ht as ([a b] & -> & Hs). simpl.
    apply parse_two_idx_sections in Hs as (Hab & Hb & Hin).
    split; [done|]. split; [|split; [|lia]].
    + intros Hnil. apply (f_equal length) in Hnil.
      unfold slice in Hnil. rewrite length_take, length_drop in Hnil.
      simpl in Hnil. lia.
    + apply Forall_forall. intros c Hc.
      apply list_elem_of_lookup in Hc as [j Hj].
      apply slice_lookup_Some in Hj as [Hj Hc].
      destruct (Hin (a + j)) as (c' & Hc' & Hd); [lia|]. congruence.
  - unfold parse_two_idx.
    pose proof (loop_sorted (is_delim delims) _ 0
      (groupby_runs (is_delim delims) input)) as Hsorted.
    pose proof (λ a b, loop_bounds (is_delim delims) _ 0 a b
      (groupby_runs (is_delim delims) input)) as Hbounds.
    induction (parse_two_idx_loop 0 (groupby (is_delim delims) input))
      as [|[a b] secs IH]; [constructor|].
    apply StronglySorted_cons in Hsorted as [Hhd Htl]. simpl.
    apply StronglySorted_cons. split.
    + apply Forall_fmap. rewrite Forall_forall in Hhd |- *.
      intros [a' b'] Hin'. simpl.
      specialize (Hhd _ Hin'). simpl in Hhd.
      destruct (Hbounds a b) as (_ & Hab & _); [apply elem_of_cons; by left|].
      lia.
    + apply IH; [done|]. intros a' b' Hin'. apply Hbounds.
      apply elem_of_cons. by right.
  - intros p c Hp. split.
    + intros Hnd.
      destruct (loop_cover (is_delim delims)
        (groupby (is_delim delims) input) 0 p c) as (a & b & Hin & Hab).
      * apply groupby_runs.
      * by rewrite groupby_concat.
      * unfold is_delim. by apply bool_decide_eq_false.
      * exists (mkStringIdx (slice input a b) a b). split; [|simpl; lia].
        apply list_elem_of_fmap. by exists (a, b).
    + intros (t & Ht & Hrange).
      apply list_elem_of_fmap in Ht as ([a b] & -> & Hs). simpl in Hrange.
      apply parse_two_idx_sections in Hs as (_ & _ & Hin).
      destruct (Hin p Hrange) as (c' & Hc' & Hd). congruence.
Qed.

Lemma loop_from key gs p a b :
  runs key gs → (a, b) ∈ parse_two_idx_loop p gs → p ≤ a.
Proof. intros Hruns Hin. by destruct (loop_bounds key gs p a b Hruns Hin). Qed.

(** The sections of [x :: l] from those of [l]: a delimiter in front
    changes nothing, another character opens a section or extends the
    one that starts right behind it. *)
Lemma loop_groupby_cons key x l p :
  parse_two_idx_loop p (groupby key (x :: l)) =
  if key x then parse_two_idx_loop (S p) (groupby key l)
  else extend_section p (parse_two_idx_loop (S p) (groupby key l)).
Proof.
  pose proof (groupby_runs key l) as Hruns.
  change (groupby key (x :: l)) with
    (match groupby key l with
     | (k, g) :: gs =>
         if Bool.eqb (key x) k then (k, x :: g) :: gs
         else (key x, [x]) :: (k, g) :: gs
     | [] => [(key x, [x])]
     end).
  destruct (groupby key l) as [|[k g] gs] eqn:E.
  { cbn [parse_two_idx_loop length]. replace (p + 1) with (S p) by lia.
    by destruct (key x). }
  destruct Hruns as (Hne & _ & Hnext & Hrest).
  assert (0 < length g) as Hlen by (destruct g; simpl; [done|lia]).
  destruct (key x), k; cbn [Bool.eqb parse_two_idx_loop length negb];
    replace (p + S (length g)) with (S p + length g) by lia;
    replace (p + 1) with (S p) by lia; try done.
  - (* a character before a delimiter *)
    destruct (parse_two_idx_loop (S p + length g) gs) as [|[a b] rest] eqn:El;
      [done|].
    assert (S p + length g ≤ a).
    { apply (loop_from key gs _ a b Hrest). rewrite El. by left. }
    unfold extend_section. case_decide; [lia|done].
  - (* a character before a section *)
    unfold extend_section. by case_decide.
Qed.

Lemma loop_shift (gs : list (bool * list char)) p n :
  parse_two_idx_loop (p + n) gs =
  (λ s, (s.1 + n, s.2 + n)) <$> parse_two_idx_loop p gs.
Proof.
  revert p. induction gs as [|[k g] rest IH]; intros p; [done|].
  cbn [parse_two_idx_loop]. replace (p + n + length g) with (p + length g + n) by lia.
  rewrite IH. by destruct k.
Qed.

Lemma loop_split key (a : list char) d (b : list char) p :
  key d = true →
  parse_two_idx_loop p (groupby key (a ++ d :: b)) =
  parse_two_idx_loop p (groupby key a) ++
  parse_two_idx_loop (p + length a + 1) (groupby key b).
Proof.
  intros Hd. revert p. induction a as [|x a IH]; intros p.
  - rewrite app_nil_l, loop_groupby_cons, Hd. simpl.
    by replace (p + 0 + 1) with (S p) by lia.
  - rewrite <- app_comm_cons, !loop_groupby_cons, IH.
    replace (S p + length a + 1) with (p + length (x :: a) + 1)
      by (simpl; lia).
    destruct (key x); [done|].
    destruct (parse_two_idx_loop (S p) (groupby key a)) as [|[s e] rest] eqn:El.
    + rewrite app_nil_l.
      destruct (parse_two_idx_loop (p + length (x :: a) + 1) (groupby key b))
        as [|[s e] rest] eqn:Eb; [done|].
      assert (p + length (x :: a) + 1 ≤ s).
      { apply (loop_from key (groupby key b) _ s e); [apply groupby_runs|].
        rewrite Eb. by left. }
      unfold extend_section. simpl. case_decide; [simpl in *; lia|done].
    + unfold extend_section. simpl. by case_decide.
Qed.

Lemma loop_one_run key l p :
  l ≠ [] → Forall (λ c, key c = false) l →
  parse_two_idx_loop p (groupby key l) = [(p, p + length l)].
Proof.
  revert p. induction l as [|x l IH]; intros p Hne Hall; [done|].
  apply Forall_cons in Hall as [Hx Hall].
  rewrite loop_groupby_cons, Hx. destruct l as [|y l].
  - simpl. by replace (p + 1) with (S p) by lia.
  - rewrite IH by done. unfold extend_section. case_decide; [|done].
    do 2 f_equal. simpl. lia.
Qed.

Lemma slice_app_l (a b : list char) s e :
  e ≤ length a → slice (a ++ b) s e = slice a s e.
Proof.
  intros He. unfold slice. destruct (decide (s ≤ e)) as [Hs|Hs].
  - rewrite drop_app_le by lia. rewrite take_app_le; [done|].
    rewrite length_drop. lia.
  - by replace (e - s) with 0 by lia.
Qed.

Lemma slice_app_r (a b : list char) s e :
  slice (a ++ b) (s + length a) (e + length a) = slice b s e.
Proof.
  unfold slice. replace (e + length a - (s + length a)) with (e - s) by lia.
  rewrite drop_app_ge by lia.
  by replace (s + length a - length a) with s by lia.
Qed.

Lemma slice_run (pre g rest : list char) :
  slice (pre ++ g ++ rest) (length pre) (length pre + length g) = g.
Proof.
  unfold slice. rewrite drop_app_length.
  replace (length pre + length g - length pre) with (length g) by lia.
  by rewrite take_app_length.
Qed.

Lemma filter_run key (k : bool) (g : list char) :
  Forall (λ x, key x = k) g →
  filter (λ c, key c = false) g = if k then [] else g.
Proof.
  induction 1 as [|x g Hx _ IH]; [by destruct k|].
  rewrite filter_cons, IH. destruct k; case_decide; congruence.
Qed.

(** The sections cut out of the input, one after the other, make up the
    characters of the groups that are no delimiters. *)
Lemma loop_concat key gs (pre : list char) :
  runs key gs →
  concat ((λ s, slice (pre ++ concat gs.*2) s.1 s.2) <$>
            parse_two_idx_loop (length pre) gs) =
  filter (λ c, key c = false) (concat gs.*2).
Proof.
  revert pre. induction gs as [|[k g] rest IH]; intros pre Hruns; [done|].
  destruct Hruns as (_ & Hall & _ & Hrest).
  cbn [parse_two_idx_loop fmap list_fmap concat fst snd].
  rewrite filter_app, (filter_run key k g Hall).
  rewrite <- (IH (pre ++ g) Hrest), <- (length_app pre g), (app_assoc pre g).
  destruct k; cbn [negb]; [done|].
  rewrite fmap_cons. cbn [concat fst snd]. f_equal.
  rewrite <- app_assoc, length_app. apply slice_run.
Qed.

(** X16: the texts of the tokens, put one after the other, are the input
    with its delimiter characters removed: [parse_idx] drops delimiters
    and nothing else, and keeps the order. *)
Theorem parse_idx_concat input delims keep_delims :
  concat (str <$> parse_idx input delims keep_delims) =
  filter (λ c, c ∉ delims) input.
Proof.
  unfold parse_idx, parse_two_idx. cbv zeta.
  rewrite <- list_fmap_compose.
  pose proof (loop_concat (is_delim delims) (groupby (is_delim delims) input)
                [] (groupby_runs _ _)) as Hloop.
  rewrite groupby_concat in Hloop. cbn [app length] in Hloop.
  etrans; [exact Hloop|].
  apply list_filter_iff. intros c. unfold is_delim.
  by rewrite bool_decide_eq_false.
Qed.

(** X17: a non-empty input without a delimiter is one token, the whole
    input from index 0 to its length. *)
Theorem parse_idx_one_token input delims keep_delims :
  input ≠ [] → Forall (λ c, c ∉ delims) input →
  parse_idx input delims keep_delims =
  [mkStringIdx input 0 (length input)].
Proof.
  intros Hne Hall. unfold parse_idx, parse_two_idx. cbv zeta.
  rewrite loop_one_run; [|done|].
  - cbn [fmap list_fmap fst snd]. unfold slice.
    rewrite drop_0, Nat.sub_0_r, Nat.add_0_l. by rewrite firstn_all.
  - eapply Forall_impl; [exact Hall|]. intros c Hc.
    by apply bool_decide_eq_false.
Qed.

(** X18: the tokens of an input that has a delimiter [d] between [a] and
    [b] are the tokens of [a] followed by the tokens of [b], the indices
    of the latter moved by [len(a) + 1]; so tokens never span a delimiter
    and delimiters at either end, or repeated, add nothing. *)
Theorem parse_idx_split_at_delim
    (a : list char) d (b : list char) delims keep_delims :
  d ∈ delims →
  parse_idx (a ++ d :: b) delims keep_delims =
  parse_idx a delims keep_delims ++
  (shift_token (length a + 1) <$> parse_idx b delims keep_delims).
Proof.
  intros Hd. unfold parse_idx, parse_two_idx. cbv zeta.
  rewrite loop_split by (by apply bool_decide_eq_true_2).
  rewrite fmap_app. f_equal.
  - apply Forall_fmap_ext, Forall_forall. intros [s e] Hin.
    destruct (parse_two_idx_sections a delims s e Hin) as (_ & He & _).
    cbn [fst snd]. by rewrite slice_app_l.
  - rewrite (loop_shift _ 0 (length a + 1)), <- !list_fmap_compose.
    apply list_fmap_ext. intros _ [s e] _. unfold shift_token. cbn.
    f_equal.
    replace (a ++ d :: b) with ((a ++ [d]) ++ b) by (by rewrite <- app_assoc).
    replace (length a + 1) with (length (a ++ [d]))
      by (rewrite length_app; simpl; lia).
    apply slice_app_r.
Qed.

End ParseIdxFacts.

(** The tokenizer on a sample line, with [nat] codes for characters:
    [" ab  c"] with delimiter [" "] gives ["ab"] at 1..3 and ["c"] at 5..6. *)
Example parse_idx_sample :
  Tokens.parse_idx [32; 97; 98; 32; 32; 99] [32] [] =
  [Tokens.mkStringIdx [97; 98] 1 3; Tokens.mkStringIdx [99] 5 6].
Proof. reflexivity. Qed.

Lemma parse_idx_tokens_witness :
  [32; 97; 98; 32; 32; 99] !! 1 = Some 97 ∧
  (97 ∉ [32] ↔
   ∃ t, t ∈ Tokens.parse_idx [32; 97; 98; 32; 32; 99] [32] [] ∧
        Tokens.idx t ≤ 1 < Tokens.idx_end t).
Proof.
  split; [reflexivity|].
  exact (proj2 (proj2 (parse_idx_tokens [32; 97; 98; 32; 32; 99] [32] []))
           1 97 eq_refl).
Defined.

Lemma parse_idx_one_token_witness :
  [97; 98; 99] ≠ [] ∧ Forall (λ c, c ∉ [32; 44]) [97; 98; 99] ∧
  Tokens.parse_idx [97; 98; 99] [32; 44] [] =
  [Tokens.mkStringIdx [97; 98; 99] 0 (length [97; 98; 99])].
Proof.
  assert ([97; 98; 99] ≠ ([] : list nat)) as Hne by discriminate.
  assert (Forall (λ c, c ∉ [32; 44]) [97; 98; 99]) as Hall.
  { repeat constructor; rewrite !elem_of_cons, elem_of_nil; lia. }
  split; [exact Hne|]. split; [exact Hall|].
  exact (parse_idx_one_token [97; 98; 99] [32; 44] [] Hne Hall).
Defined.

Lemma parse_idx_split_at_delim_witness :
  44 ∈ [32; 44] ∧
  Tokens.parse_idx ([97; 32; 98] ++ 44 :: [32; 99]) [32; 44] [] =
  Tokens.parse_idx [97; 32; 98] [32; 44] [] ++
  (Tokens.shift_token (length [97; 32; 98] + 1) <$>
     Tokens.parse_idx [32; 99] [32; 44] []).
Proof.
  assert (44 ∈ [32; 44]) as Hd by (rewrite !elem_of_cons; lia).
  split; [exact Hd|].
  exact (parse_idx_split_at_delim [97; 32; 98] 44 [32; 99] [32; 44] [] Hd).
Defined.

(** ** The result of [dict_to_hdf] *)

Section WriteResult.

Variable h5_dataset : pyval → h5_result.
Context `{!Linking}.
Variable open_error : string → option string.
Variable json_dumps : pyval → nat → string + string.

#[local] Abbreviation primary_ok := (primary_ok h5_dataset).
#[local] Abbreviation json_ok := (json_ok open_error json_dumps).

(** The value [dict_to_hdf] returns or the exception it lets through. *)
Lemma dict_to_hdf_outcome root_data save_file use_json_backup show_detail w :
  (dict_to_hdf h5_dataset open_error json_dumps
     root_data save_file use_json_backup show_detail w).1 =
  match open_error save_file with
  | Some e => Exc e
  | None =>
      Ret (primary_ok root_data show_detail || negb use_json_backup
           || json_ok save_file root_data)
  end.
Proof.
  unfold dict_to_hdf, primary_ok, json_ok, write_json.
  destruct (open_error save_file); [done|].
  destruct (write_level _ _ _ _) as [[r root] detail]. simpl.
  destruct r as [[|]|e]; simpl; [done|..];
    (destruct use_json_backup; simpl; [|done]);
    (destruct (open_error _); [done|]); by destruct (json_dumps _ _).
Qed.

(** C9: with [use_json_backup] false the call returns [True] whenever it
    returns at all (the only exception is the one raised when [save_file]
    cannot be opened), whatever [write_level] did; and the call returns
    [False] exactly when the container write failed, [use_json_backup] is
    true and the JSON fallback write failed. *)
Theorem dict_to_hdf_return_value
    root_data save_file use_json_backup show_detail w :
  (dict_to_hdf h5_dataset open_error json_dumps
     root_data save_file false show_detail w).1 =
  match open_error save_file with Some e => Exc e | None => Ret true end
  ∧
  ((dict_to_hdf h5_dataset open_error json_dumps
      root_data save_file use_json_backup show_detail w).1 = Ret false
   ↔ open_error save_file = None ∧
     primary_ok root_data show_detail = false ∧
     use_json_backup = true ∧
     json_ok save_file root_data = false).
Proof.
  rewrite !dict_to_hdf_outcome. split.
  - destruct (open_error save_file); [done|].
    by rewrite orb_true_r.
  - destruct (open_error save_file) as [e|].
    { split; [done|]. by intros [? _]. }
    destruct (primary_ok _ _), use_json_backup, (json_ok _ _); simpl;
      split; try done; try (intros (_ & ? & ? & ?); done).
Qed.

(** C1, as the source has it: when the container write fails and
    [use_json_backup] is true, the call returns [True] if the JSON
    fallback write succeeds and [False] if it fails. *)
Theorem dict_to_hdf_fallback_result root_data save_file show_detail w :
  open_error save_file = None →
  primary_ok root_data show_detail = false →
  (dict_to_hdf h5_dataset open_error json_dumps
     root_data save_file true show_detail w).1 =
  Ret (json_ok save_file root_data).
Proof.
  intros Hopen Hfail. rewrite dict_to_hdf_outcome, Hopen, Hfail. done.
Qed.

End WriteResult.

(** ** The writer on concrete trees *)

Section WriteExamples.
Import Demo.

(** C1 as the claim words it fails: the container rejects the object, so
    the container write fails; [use_json_backup] is true; the object is not
    JSON serializable either, and the call returns [False]. *)
Lemma fallback_failure_returns_false :
  let root_data := PDict [("x", PObj "Foo")] in
  open_ok "out.hdf" = None ∧
  primary_ok h5_plain root_data false = false ∧
  json_ok open_ok json_text "out.hdf" root_data = false ∧
  (dict_to_hdf h5_plain open_ok json_text
     root_data "out.hdf" true false empty_world).1 = Ret false.
Proof. vm_compute. done. Qed.

Lemma dict_to_hdf_fallback_result_witness :
  let root_data := PDict [("x", PNone)] in
  open_ok "data.hdf" = None ∧
  primary_ok h5_plain root_data false = false ∧
  (dict_to_hdf h5_plain open_ok json_text
     root_data "data.hdf" true false empty_world).1 = Ret true.
Proof.
  split; [reflexivity|]. split; [reflexivity|].
  exact (dict_to_hdf_fallback_result h5_plain open_ok json_text
           (PDict [("x", PNone)]) "data.hdf" false empty_world
           eq_refl eq_refl).
Defined.

Lemma dict_to_hdf_return_value_witness :
  let root_data := PDict [("x", PObj "Foo")] in
  (open_ok "out.hdf" = None ∧
   primary_ok h5_plain root_data false = false ∧
   true = true ∧
   json_ok open_ok json_text "out.hdf" root_data = false) ∧
  (dict_to_hdf h5_plain open_ok json_text
     root_data "out.hdf" true false empty_world).1 = Ret false.
Proof.
  split; [by repeat split|].
  exact (proj2 (proj2 (dict_to_hdf_return_value h5_plain open_ok json_text
                         (PDict [("x", PObj "Foo")]) "out.hdf" true false
                         empty_world))
           (conj eq_refl (conj eq_refl (conj eq_refl eq_refl)))).
Defined.

(** C3 at a tree with one rejected leaf and [use_json_backup] false: the
    failure is printed, the container file stays on disk (empty, as the
    leaf was the only entry), and the value returned is [True]. *)
Lemma rejected_leaf_returns_true :
  let r := dict_to_hdf h5_plain open_ok json_text
             (PDict [("x", PObj "Foo")]) "out.hdf" false false empty_world in
  r.1 = Ret true ∧
  files r.2 !! "out.hdf" = Some (HdfFile []) ∧
  stdout r.2 = [FailedHdfWrite "Set show_detail to true for details"].
Proof. vm_compute. done. Qed.

(** C4 at a tree whose failing leaf sits in a sub-dictionary: the sibling
    ["c"] after the sub-dictionary is still written, [write_level] returns
    [True], and [dict_to_hdf] reports a written file. *)
Lemma nested_failure_continues :
  let root_data :=
    PDict [("a", PDict [("b", PObj "Foo")]); ("c", PInt 1)] in
  write_level h5_plain [] root_data false =
    (Ret true, [("a", Group []); ("c", Dataset (PInt 1))], []) ∧
  let r := dict_to_hdf h5_plain open_ok json_text
             root_data "out.hdf" false false empty_world in
  r.1 = Ret true ∧ stdout r.2 = [WroteFile].
Proof. vm_compute. done. Qed.

(** C7 at a tree whose failing leaf sits in a sub-dictionary, with
    [show_detail] true: no line about the dataset is printed. *)
Lemma nested_failure_prints_no_detail :
  let root_data := PDict [("a", PDict [("b", PObj "Foo")])] in
  (write_level h5_plain [] root_data true).2 = [] ∧
  stdout (dict_to_hdf h5_plain open_ok json_text
            root_data "out.hdf" false true empty_world).2 = [WroteFile].
Proof. vm_compute. done. Qed.

(** C8 at the save path ["data.hdf"]: the fallback goes to ["data..json"]
    and nothing is written at ["data.json"]. *)
Lemma backup_path_keeps_dot :
  let r := dict_to_hdf h5_plain open_ok json_text
             (PDict [("x", PNone)]) "data.hdf" true false empty_world in
  drop_last3 "data.hdf" +:+ ".json" = "data..json" ∧
  match json_text (PDict [("x", PNone)]) 4 with
  | inr text => files r.2 !! "data..json" = Some (TextFile text)
  | inl _ => False
  end ∧
  files r.2 !! "data.json" = None.
Proof. vm_compute. done. Qed.

End WriteExamples.

(** ** The loop of [write_level] in general *)

Section WriteLoop.

Variable h5_dataset : pyval → h5_result.
Context `{!Linking}.

#[local] Abbreviation write_level := (write_level h5_dataset).
#[local] Abbreviation write_items := (write_items h5_dataset).
#[local] Abbreviation create_dataset := (create_dataset h5_dataset).

Lemma write_level_dict fh items show_detail :
  write_level fh (PDict items) show_detail =
  write_items (λ v, write_level [] v false) show_detail items fh [].
Proof. reflexivity. Qed.

(** The loop over [pre ++ items] is the loop over [items] started where
    the loop over [pre] ended, provided that one ran to its end. *)
Lemma write_items_app rec show_detail pre items fh out fh' out' :
  write_items rec show_detail pre fh out = (Ret true, fh', out') →
  write_items rec show_detail (pre ++ items) fh out =
  write_items rec show_detail items fh' out'.
Proof.
  revert fh out. induction pre as [|[k v] pre IH]; intros fh out Hpre;
    simpl in *.
  { by injection Hpre as -> ->. }
  destruct (is_dict v).
  - destruct (create_group k fh) as [e|put]; [done|].
    destruct (rec v) as [[r sub] out1]. destruct r; [|done]. by apply IH.
  - destruct (create_dataset k v fh) as [[e|] fh1]; [done|]. by apply IH.
Qed.

(** The loop ends at the first leaf, at the level being written, whose
    [create_dataset] raises: it returns [False], the group holds what the
    items before the leaf produced and what the failed call left, and with
    [show_detail] the line naming the key, the type of its value and the
    error is the last one printed; without it nothing is added. *)
Lemma write_items_leaf_failure
    rec show_detail pre k v post fh out fh' out' e fh'' :
  write_items rec show_detail pre fh out = (Ret true, fh', out') →
  is_dict v = false →
  create_dataset k v fh' = (Some e, fh'') →
  write_items rec show_detail (pre ++ (k, v) :: post) fh out =
  (Ret false, fh'',
   if show_detail then out' ++ [FailedDataset k (py_type v) e] else out').
Proof.
  intros Hpre Hleaf Hfail. rewrite (write_items_app _ _ _ _ _ _ _ _ Hpre).
  simpl. by rewrite Hleaf, Hfail.
Qed.

(** Without [show_detail] the loop prints nothing, if the recursive calls
    print nothing. *)
Lemma write_items_silent rec items fh out :
  Forall (λ kv, (rec kv.2).2 = []) items →
  (write_items rec false items fh out).2 = out.
Proof.
  revert fh out. induction items as [|[k v] items IH]; intros fh out Hrec;
    simpl; [done|].
  apply Forall_cons in Hrec as [Hv Hrec]. simpl in Hv.
  destruct (is_dict v).
  - destruct (create_group k fh) as [e|put]; [done|].
    destruct (rec v) as [[r sub] out1]. simpl in Hv. subst out1.
    rewrite app_nil_r. destruct r; [by apply IH|done].
  - destruct (create_dataset k v fh) as [[e|] fh1]; [done|]. by apply IH.
Qed.

Lemma write_level_silent fh level_data :
  (write_level fh level_data false).2 = [].
Proof.
  revert fh. induction level_data as [v Hv|items IH] using pyval_dict_ind;
    intros fh.
  - by destruct v.
  - rewrite write_level_dict. apply write_items_silent.
    eapply Forall_impl; [exact IH|]. intros kv Hkv. apply Hkv.
Qed.

(** A sub-dictionary never ends the loop of the level above it by a
    returned value: whatever the recursive call returns, the loop goes on
    with the next item, and it prints nothing. *)
Lemma write_items_after_subdict show_detail k v rest fh out put r sub :
  is_dict v = true →
  create_group k fh = inr put →
  (write_level [] v false).1 = (Ret r, sub) →
  write_items (λ v, write_level [] v false) show_detail ((k, v) :: rest) fh out =
  write_items (λ v, write_level [] v false) show_detail rest (put sub) out.
Proof.
  intros Hd Hg Hr. simpl. rewrite Hd, Hg.
  pose proof (write_level_silent [] v) as Hout.
  destruct (write_level [] v false) as [[r' sub'] out1]. simpl in *.
  injection Hr as -> ->. subst out1. by rewrite app_nil_r.
Qed.

End WriteLoop.

(** ** The reader *)

Section Reader.

Variable bytes_decode : string → string + string.
Context `{!Numpy}.

#[local] Abbreviation py_decode := (py_decode bytes_decode).
#[local] Abbreviation decode_elements := (decode_elements bytes_decode).
#[local] Abbreviation read_dataset := (read_dataset bytes_decode).
#[local] Abbreviation read_level := (read_level bytes_decode).
#[local] Abbreviation hdf_to_dict := (hdf_to_dict bytes_decode).
#[local] Abbreviation decoded := (decoded bytes_decode).
#[local] Abbreviation decodes := (decodes bytes_decode).

Lemma py_decode_inr x y : py_decode x = inr y ↔ decoded x y.
Proof.
  unfold decoded, bytes_of. split.
  - destruct x; simpl; try done;
      (destruct (bytes_decode b) as [e|s] eqn:Hb; [done|]);
      intros [= <-]; eauto 6.
  - intros (b & s & [-> | ->] & Hb & ->); simpl; by rewrite Hb.
Qed.

Lemma decode_elements_inr xs ys :
  decode_elements xs = inr ys ↔ Forall2 decoded xs ys.
Proof.
  revert ys. induction xs as [|x xs IH]; intros ys; simpl.
  - split; [intros [= <-]; constructor|]. by intros ->%Forall2_nil_inv_l.
  - destruct (py_decode x) as [e|y] eqn:Hx.
    + split; [done|]. intros (y & ys' & Hy%py_decode_inr & _ & _)%Forall2_cons_inv_l.
      congruence.
    + destruct (decode_elements xs) as [e|ys'] eqn:Hxs.
      * split; [done|].
        intros (y' & ys' & _ & Hys%IH & _)%Forall2_cons_inv_l. done.
      * split.
        -- intros [= <-]. constructor; [by apply py_decode_inr|by apply IH].
        -- intros (y' & ys'' & Hy%py_decode_inr & Hys%IH & ->)%Forall2_cons_inv_l.
           congruence.
Qed.

Lemma decode_elements_total xs :
  Forall decodes xs → ∃ ys, decode_elements xs = inr ys.
Proof.
  induction 1 as [|x xs (b & s & [-> | ->] & Hb) _ [ys IH]]; simpl; [eauto|..];
    rewrite Hb, IH; eauto.
Qed.

Lemma decode_elements_inl xs e :
  decode_elements xs = inl e → ¬ Forall decodes xs.
Proof.
  intros He Hall. destruct (decode_elements_total xs Hall) as [ys Hys].
  congruence.
Qed.

Lemma starts_with_bytes_array xs :
  starts_with_bytes (PArray xs) = starts_with_bytes (PList xs).
Proof. by destruct xs as [|[] ?]. Qed.

(** The dataset on which the conversion applies, [ys] being the elements
    of the converted sequence. *)
Lemma read_dataset_converted (to_lists decode_strs : bool) xs ys :
  (if to_lists then inr xs else np_array xs) = inr ys →
  read_dataset to_lists decode_strs (if to_lists then PArray xs else PList xs) =
  if starts_with_bytes (PList ys) then
    match decode_elements ys with
    | inl e => inl e
    | inr zs => inr (seq_form to_lists zs)
    end
  else inr (seq_form to_lists ys).
Proof.
  unfold read_dataset, convert_sequence. destruct to_lists; cbn [negb].
  - intros [= ->]. cbn [andb].
    destruct (starts_with_bytes (PList ys)); [done|]. by rewrite andb_false_r.
  - intros ->. cbn [andb]. rewrite starts_with_bytes_array.
    destruct (starts_with_bytes (PList ys)); [done|]. by rewrite andb_false_r.
Qed.


(** C2, as the source has it.  Once [filename] opens as a container the
    call returns: the dictionary when [read_level] ends normally, and
    otherwise [None], after printing the error; no exception gets out.
    The world is left as it was apart from that line. *)
Theorem hdf_to_dict_returns_once_open filename to_lists decode_strs w root :
  files w !! filename = Some (HdfFile root) →
  ∃ result w',
    hdf_to_dict filename to_lists decode_strs w = (Ret result, w') ∧
    files w' = files w ∧
    match read_level to_lists decode_strs (Group root) with
    | inr root_data => result = Some root_data ∧ stdout w' = stdout w
    | inl e => result = None ∧ stdout w' = stdout w ++ [FailedHdfRead e]
    end.
Proof.
  intros Hfile. unfold hdf_to_dict. rewrite Hfile.
  destruct (read_level _ _ _) as [e|root_data];
    eexists _, _; (split; [reflexivity|]); done.
Qed.

(** X6: the error raised by opening the file is outside the [try] block and
    leaves [hdf_to_dict]. *)
Lemma hdf_to_dict_open_error filename to_lists decode_strs w :
  (∀ root, files w !! filename ≠ Some (HdfFile root)) →
  ∃ e, hdf_to_dict filename to_lists decode_strs w = (Exc e, w).
Proof.
  intros Hfile. unfold hdf_to_dict.
  destruct (files w !! filename) as [[root|content]|]; eauto.
  by destruct (Hfile root).
Qed.

End Reader.

(** ** Writing a tree and reading it back *)

Section RoundTrip.

Variable h5_dataset : pyval → h5_result.
Context `{!Linking}.
Variable open_error : string → option string.
Variable json_dumps : pyval → nat → string + string.
Variable bytes_decode : string → string + string.
Context `{!Numpy}.

#[local] Abbreviation write_level := (write_level h5_dataset).
#[local] Abbreviation write_items := (write_items h5_dataset).
#[local] Abbreviation dict_to_hdf := (dict_to_hdf h5_dataset open_error json_dumps).
#[local] Abbreviation read_dataset := (read_dataset bytes_decode).
#[local] Abbreviation read_entries := (read_entries bytes_decode).
#[local] Abbreviation read_level := (read_level bytes_decode).
#[local] Abbreviation hdf_to_dict := (hdf_to_dict bytes_decode).
#[local] Abbreviation decoded := (decoded bytes_decode).
#[local] Abbreviation decodes := (decodes bytes_decode).
#[local] Abbreviation item_stored := (item_stored bytes_decode).
#[local] Abbreviation stored_as := (stored_as bytes_decode).
#[local] Abbreviation decodable := (decodable bytes_decode).
#[local] Abbreviation representable := (representable h5_dataset bytes_decode).
#[local] Abbreviation item_equiv := (item_equiv bytes_decode).
#[local] Abbreviation leaf_norm := (leaf_norm bytes_decode).
#[local] Abbreviation tree_norm := (tree_norm bytes_decode).
#[local] Abbreviation accepts := (accepts h5_dataset).
#[local] Abbreviation holds := (holds h5_dataset).

(** *** What the writer leaves in the container *)

Lemma dict_set_fresh k v (d : list (string * pyval)) :
  k ∉ d.*1 → dict_set k v d = d ++ [(k, v)].
Proof.
  induction d as [|[k' x] d IH]; simpl; intros Hk; [done|].
  apply not_elem_of_cons in Hk as [Hne Hk].
  rewrite decide_False by done. by rewrite IH.
Qed.

Lemma NoDup_app_cons_fresh (pre : list string) k rest :
  NoDup (pre ++ k :: rest) → (k ∉ pre) ∧ NoDup ((pre ++ [k]) ++ rest).
Proof.
  intros Hnd. split.
  - apply NoDup_app in Hnd as (_ & Hdisj & _). intros Hin.
    apply (Hdisj _ Hin). by left.
  - by rewrite <- app_assoc.
Qed.

Lemma plain_keys_dict items :
  plain_keys (PDict items) = true →
  Forall (λ kv, plain_name kv.1 = true ∧ plain_keys kv.2 = true) items.
Proof.
  simpl. intros Hall. apply Forall_forall. intros kv Hin.
  apply andb_prop. apply (proj1 (forallb_forall _ _) Hall).
  by apply list_elem_of_In.
Qed.

(** Under a name that the group does not have yet, the new object becomes
    a member. *)
Lemma links_new_name k (fh : list (string * node)) :
  links_names → plain_name k = true → k ∉ fh.*1 →
  h5_parent k fh = inr fh ∧
  ∃ put, h5_link k fh = inr put ∧ ∀ nd, put nd ≡ₚ fh ++ [(k, nd)].
Proof.
  intros Hlinks Hk Hfresh. destruct (Hlinks k fh Hk) as [Hpar Hlink].
  split; [done|]. destruct (h5_link k fh) as [e|put]; [done|].
  exists put. by destruct Hlink.
Qed.

(** The loop of [write_level] over items whose leaves are all accepted
    and whose sub-dictionaries are all written in full. *)
Lemma write_items_holds rec show_detail items fh out :
  links_names →
  NoDup (fh.*1 ++ items.*1) →
  Forall (λ kv, plain_name kv.1 = true) items →
  Forall (λ kv, if is_dict (kv.2)
                then ∃ sub, rec kv.2 = (Ret true, sub, []) ∧
                            holds kv.2 (Group sub)
                else accepts kv.2 = true) items →
  ∃ fh' placed,
    write_items rec show_detail items fh out = (Ret true, fh', out) ∧
    fh' ≡ₚ fh ++ placed ∧
    Forall2 (λ kv e, kv.1 = e.1 ∧ holds kv.2 e.2) items placed.
Proof.
  intros Hlinks. revert fh out.
  induction items as [|[k v] items IH]; intros fh out Hnd Hnames Hall; simpl.
  { exists fh, []. by rewrite app_nil_r. }
  apply Forall_cons in Hnames as [Hk Hnames].
  apply Forall_cons in Hall as [Hv Hall]. simpl in *.
  apply NoDup_app_cons_fresh in Hnd as [Hfresh Hnd].
  destruct (links_new_name k fh Hlinks Hk Hfresh)
    as (Hpar & put & Hlink & Hput).
  assert (∀ nd, NoDup ((put nd).*1 ++ items.*1)) as Hnd'.
  { intros nd. rewrite (Hput nd), fmap_app. exact Hnd. }
  destruct (is_dict v) eqn:Hd.
  - unfold create_group. rewrite Hlink.
    destruct Hv as (sub & -> & Hsub). rewrite app_nil_r.
    destruct (IH (put (Group sub)) out (Hnd' _) Hnames Hall)
      as (fh' & placed & -> & Hperm & Hitems).
    exists fh', ((k, Group sub) :: placed). split; [done|]. split.
    + rewrite Hperm, Hput, <- app_assoc. done.
    + by constructor.
  - unfold create_dataset. unfold accepts in Hv. rewrite Hpar.
    destruct (h5_dataset v) as [raw|e|e raw] eqn:Hraw; try done.
    rewrite Hlink.
    destruct (IH (put (Dataset raw)) out (Hnd' _) Hnames Hall)
      as (fh' & placed & -> & Hperm & Hitems).
    exists fh', ((k, Dataset raw) :: placed). split; [done|]. split.
    + rewrite Hperm, Hput, <- app_assoc. done.
    + constructor; [|done]. split; [done|]. by constructor.
Qed.

Lemma write_level_holds v show_detail :
  links_names → is_dict v = true → plain_keys v = true →
  tree_of (λ v, accepts v = true) v →
  ∃ sub, write_level [] v show_detail = (Ret true, sub, []) ∧
         holds v (Group sub).
Proof.
  intros Hlinks. revert show_detail.
  induction v as [v Hv|items IH] using pyval_dict_ind;
    intros show_detail Hd Hkeys Htree; [congruence|].
  inversion Htree as [? Hleaf|? Hnd Hsub]; subst; [done|].
  rewrite write_level_dict. apply plain_keys_dict in Hkeys.
  destruct (write_items_holds (λ v, write_level [] v false) show_detail
              items [] []) as (fh' & placed & Hw & Hperm & Hitems);
    [done|done|..].
  - eapply Forall_impl; [exact Hkeys|]. by intros ? [? ?].
  - apply Forall_forall. intros [k v] Hin.
    rewrite Forall_forall in IH, Hsub, Hkeys.
    specialize (IH _ Hin). specialize (Hsub _ Hin).
    destruct (Hkeys _ Hin) as [_ Hkv]. simpl in *.
    destruct (is_dict v) eqn:Hdv; [by apply IH|].
    inversion Hsub as [? _ Hp|]; subst; done.
  - exists fh'. split; [done|]. by apply holds_dict with placed.
Qed.

(** *** What the reader makes of it *)

Lemma item_stored_equiv x y : item_stored x y → item_equiv x y.
Proof.
  intros [->|[(s & b & -> & -> & Hb)|(b & -> & ->)]]; [by left|..].
  - right. right. exists b, s. split; [done|]. right. split; [done|by left].
  - right. left. exists b. split; [by left|by right].
Qed.

Lemma item_stored_decoded x y z :
  item_stored x y → decoded y z → item_equiv x z.
Proof.
  intros Hxy (b & s & Hy & Hb & ->).
  destruct Hxy as [->|[(s' & b' & -> & -> & Hb')|(b' & -> & ->)]].
  - right. right. exists b, s. split; [done|]. by left.
  - left. destruct Hy as [[= <-]|[=]]. congruence.
  - right. right. exists b, s. split; [done|]. left. split; [|done].
    destruct Hy as [[=]|[= <-]]. by left.
Qed.

Lemma Forall2_stored_decoded xs ys zs :
  Forall2 item_stored xs ys → Forall2 decoded ys zs →
  Forall2 item_equiv xs zs.
Proof.
  intros Hxy. revert zs. induction Hxy as [|x y xs ys Hx _ IH]; intros zs Hyz.
  - apply Forall2_nil_inv_l in Hyz as ->. constructor.
  - apply Forall2_cons_inv_l in Hyz as (z & zs' & Hz & Hzs & ->).
    constructor; [by eapply item_stored_decoded|by apply IH].
Qed.

(** A stored array reads back in the requested type, its elements either
    untouched or all decoded. *)
Lemma read_dataset_stored_array (to_lists decode_strs : bool) ys :
  decodable (PArray ys) →
  ∃ zs, read_dataset to_lists decode_strs (PArray ys) =
          inr (seq_form to_lists zs) ∧
        (zs = ys ∨ Forall2 decoded ys zs).
Proof.
  intros Hdec. destruct to_lists.
  - pose proof (read_dataset_converted bytes_decode true decode_strs ys ys
                  eq_refl) as Hconv.
    destruct (starts_with_bytes (PList ys)) eqn:Hb; rewrite ?Hb in Hconv.
    + destruct (decode_elements_total bytes_decode ys) as [zs Hzs].
      { apply Hdec. by rewrite starts_with_bytes_array. }
      rewrite Hzs in Hconv. exists zs. split; [exact Hconv|].
      right. by apply decode_elements_inr.
    + exists ys. split; [exact Hconv|by left].
  - exists ys. split; [|by left].
    unfold read_dataset, convert_sequence. cbn [negb andb].
    by rewrite andb_false_r.
Qed.

Lemma read_dataset_scalar (to_lists decode_strs : bool) raw :
  match raw with PList _ | PArray _ | PBytes _ => False | _ => True end →
  read_dataset to_lists decode_strs raw = inr raw.
Proof.
  unfold read_dataset, convert_sequence.
  destruct raw; try done; intros _; cbn [andb]; by rewrite andb_false_r.
Qed.

Lemma read_dataset_bytes (to_lists decode_strs : bool) b :
  read_dataset to_lists decode_strs (PBytes b) =
  if decode_strs then
    match bytes_decode b with
    | inl e => inl e
    | inr s => inr (PStr s)
    end
  else inr (PBytes b).
Proof. by destruct decode_strs. Qed.

(** A representable leaf reads back as its normal form. *)
Lemma read_dataset_norm (to_lists decode_strs : bool) v raw :
  is_dict v = false → stored_as v raw → decodable raw →
  ∃ r, read_dataset to_lists decode_strs raw = inr r ∧
       leaf_norm to_lists decode_strs v r.
Proof.
  intros Hleaf Hst Hdec.
  assert (∀ xs, (∃ ys, raw = PArray ys ∧ Forall2 item_stored xs ys) →
    ∃ r, read_dataset to_lists decode_strs raw = inr r ∧
         ∃ zs, r = seq_form to_lists zs ∧ Forall2 item_equiv xs zs) as Hseq.
  { intros xs (ys & -> & Hxs).
    destruct (read_dataset_stored_array to_lists decode_strs ys Hdec)
      as (zs & Hread & Hzs).
    eexists. split; [exact Hread|]. exists zs. split; [done|].
    destruct Hzs as [->|Hzs].
    - eapply Forall2_impl; [exact Hxs|]. apply item_stored_equiv.
    - by eapply Forall2_stored_decoded. }
  destruct v; simpl in Hst |- *; try done; try (by apply Hseq).
  - (* None *)
    destruct Hst as [->|[(? & ? & ? & _)|(? & ? & _)]]; try done.
    exists PNone. by rewrite read_dataset_scalar.
  - (* a boolean *)
    destruct Hst as [->|[(? & ? & ? & _)|(? & ? & _)]]; try done.
    eexists. by rewrite read_dataset_scalar.
  - (* an integer *)
    destruct Hst as [->|[(? & ? & ? & _)|(? & ? & _)]]; try done.
    eexists. by rewrite read_dataset_scalar.
  - (* text *)
    destruct Hst as [->|[(s' & b & [= <-] & -> & Hb)|(? & ? & _)]]; try done.
    + eexists. rewrite read_dataset_scalar by done. split; [done|by left].
    + rewrite read_dataset_bytes, Hb. destruct decode_strs.
      * eexists. split; [done|]. by left.
      * eexists. split; [done|]. right. eauto.
  - (* bytes *)
    destruct Hst as [->|[(? & ? & ? & _)|(b' & [= <-] & ->)]]; try done.
    + destruct Hdec as [s Hs]. rewrite read_dataset_bytes, Hs.
      destruct decode_strs; eexists; (split; [done|]); right; eauto.
    + eexists. rewrite read_dataset_scalar by done. split; [done|by left].
  - (* numpy.bytes_ *)
    destruct Hst as [->|[(? & ? & ? & _)|(? & ? & _)]]; try done.
    eexists. by rewrite read_dataset_scalar.
  - (* a foreign object *)
    destruct Hst as [->|[(? & ? & ? & _)|(? & ? & _)]]; try done.
    eexists. by rewrite read_dataset_scalar.
Qed.

Lemma read_level_group to_lists decode_strs entries :
  read_level to_lists decode_strs (Group entries) =
  read_entries (read_level to_lists decode_strs) to_lists decode_strs entries [].
Proof. reflexivity. Qed.

(** The loop of [read_level] over entries with distinct names, each of
    which reads as the value next to it. *)
Lemma read_entries_along rec to_lists decode_strs entries got out :
  NoDup (out.*1 ++ entries.*1) →
  Forall2 (λ e kv', e.1 = kv'.1 ∧
             match e.2 with
             | Group _ => ∃ sub, rec e.2 = inr sub ∧ kv'.2 = PDict sub
             | Dataset raw => read_dataset to_lists decode_strs raw = inr kv'.2
             end) entries got →
  read_entries rec to_lists decode_strs entries out = inr (out ++ got).
Proof.
  intros Hnd Hall. revert out Hnd.
  induction Hall as [|[k nd] [k' r] entries got [Hk Hr] _ IH]; intros out Hnd;
    simpl.
  { by rewrite app_nil_r. }
  simpl in *. subst k'.
  apply NoDup_app_cons_fresh in Hnd as [Hfresh Hnd].
  destruct nd as [sub0|raw].
  - destruct Hr as (sub & -> & ->). rewrite dict_set_fresh by done.
    rewrite IH by (by rewrite fmap_app). by rewrite <- app_assoc.
  - rewrite Hr. rewrite dict_set_fresh by done.
    rewrite IH by (by rewrite fmap_app). by rewrite <- app_assoc.
Qed.

Lemma Forall2_same_keys {A B} (R : A → B → Prop)
    (l : list (string * A)) (k : list (string * B)) :
  Forall2 (λ x y, x.1 = y.1 ∧ R x.2 y.2) l k → l.*1 = k.*1.
Proof.
  induction 1 as [|x y l k [Hxy _] _ IH]; [done|].
  rewrite !fmap_cons. by rewrite Hxy, IH.
Qed.

(** What [read_level] makes of a node that holds a tree of representable
    leaves. *)
Lemma read_level_holds to_lists decode_strs v nd :
  tree_of representable v → holds v nd →
  ∃ r, tree_norm to_lists decode_strs v r ∧
       match nd with
       | Group _ =>
           ∃ sub, read_level to_lists decode_strs nd = inr sub ∧ r = PDict sub
       | Dataset raw => read_dataset to_lists decode_strs raw = inr r
       end.
Proof.
  revert nd. induction v as [v Hv|items IH] using pyval_dict_ind;
    intros nd Htree Hholds.
  - inversion Hholds as [? raw _ Hraw|]; subst; [|done].
    inversion Htree as [? _ (raw' & Hraw' & Hst & Hdec)|]; subst; [|done].
    assert (raw' = raw) as -> by congruence.
    destruct (read_dataset_norm to_lists decode_strs v raw Hv Hst Hdec)
      as (r & Hr & Hn).
    exists r. split; [by constructor|done].
  - inversion Hholds as [|? entries placed Hperm Hplaced]; subst; [done|].
    inversion Htree as [? Hleaf|? Hnd Hsub]; subst; [done|].
    assert (∃ rs,
      Forall2 (λ kv kv', kv.1 = kv'.1 ∧
                 tree_norm to_lists decode_strs kv.2 kv'.2) items rs ∧
      Forall2 (λ e kv', e.1 = kv'.1 ∧
                 match e.2 with
                 | Group _ =>
                     ∃ sub, read_level to_lists decode_strs e.2 = inr sub ∧
                            kv'.2 = PDict sub
                 | Dataset raw =>
                     read_dataset to_lists decode_strs raw = inr kv'.2
                 end) placed rs) as (rs & Hnorm & Hread).
    { clear Hperm Hnd Hholds Htree.
      induction Hplaced as [|[k v] [k' nd] items placed [Hk Hh] _ IHp].
      { exists []. split; constructor. }
      apply Forall_cons in IH as [IHv IH].
      apply Forall_cons in Hsub as [Hv Hsub]. simpl in *. subst k'.
      destruct (IHv nd Hv Hh) as (r & Hn & Hr).
      destruct (IHp IH Hsub) as (rs & Hrs1 & Hrs2).
      exists ((k, r) :: rs). split; constructor; done. }
    destruct (Permutation_Forall2 Hperm Hread) as (got & Hgot & Hread').
    exists (PDict got). split; [by apply norm_dict with rs|].
    exists got. split; [|done]. rewrite read_level_group.
    rewrite (read_entries_along _ _ _ entries got []); [done| |done].
    simpl. rewrite <- Hperm.
    by rewrite <- (Forall2_same_keys _ _ _ Hplaced).
Qed.

Lemma representable_accepts v : representable v → accepts v = true.
Proof. intros (raw & Hraw & _). unfold accepts. by rewrite Hraw. Qed.

Lemma tree_of_impl (P Q : pyval → Prop) v :
  (∀ x, P x → Q x) → tree_of P v → tree_of Q v.
Proof.
  intros HPQ. induction v as [v Hv|items IH] using pyval_dict_ind;
    intros Htree.
  - inversion Htree as [? _ Hp|]; subst; [|done].
    apply tree_leaf; [done|by apply HPQ].
  - inversion Htree as [? Hleaf|? Hnd Hsub]; subst; [done|].
    apply tree_dict; [done|]. apply Forall_forall. intros kv Hin.
    rewrite Forall_forall in IH, Hsub. by apply IH, Hsub.
Qed.


End RoundTrip.

(** ** The reader and the round trip on concrete files *)

Section ReadExamples.
Import Demo.

(** The group of the examples links by name as h5py does. *)
Lemma insert_by_name_perm k nd fh :
  insert_by_name k nd fh ≡ₚ fh ++ [(k, nd)].
Proof.
  induction fh as [|[k' nd'] fh IH]; simpl; [done|].
  destruct (String.ltb k k').
  - apply (Permutation_cons_append ((k', nd') :: fh)).
  - by rewrite IH.
Qed.

Lemma path_parts_no_slash k :
  forallb (λ c, negb (is_slash c)) (String.list_ascii_of_string k) = true →
  path_parts k = [k].
Proof.
  induction k as [|c k IH]; simpl; [done|].
  intros [Hc Hk]%andb_prop. destruct (is_slash c); [done|].
  by rewrite (IH Hk).
Qed.

Lemma path_names_plain k : plain_name k = true → path_names k = [k].
Proof.
  unfold plain_name, path_names.
  intros [[[Hne Hdot]%andb_prop _]%andb_prop Hchars]%andb_prop.
  rewrite path_parts_no_slash.
  - apply negb_true_iff, bool_decide_eq_false in Hne, Hdot.
    rewrite filter_cons, filter_nil. by rewrite decide_True.
  - apply forallb_forall. intros c Hc.
    apply (proj1 (forallb_forall _ _) Hchars) in Hc.
    by apply andb_prop in Hc as [? _].
Qed.

Lemma link_by_path_links : links_names.
Proof.
  intros k fh Hk. unfold h5_parent, h5_link, link_by_path.
  rewrite (path_names_plain k Hk). split; [done|]. simpl.
  case_bool_decide; [done|]. split; [done|].
  intros nd. apply insert_by_name_perm.
Qed.

(** C2 as the claim words it fails: a path with no file, and a path whose
    file is no container, both end in an exception that leaves
    [hdf_to_dict]. *)
Lemma missing_file_raises :
  let w := mkWorld {["notes.txt" := TextFile "hello"]} [] in
  (hdf_to_dict utf8_decode "missing.hdf" true true w).1 =
    Exc "Unable to open file (No such file or directory)" ∧
  (hdf_to_dict utf8_decode "notes.txt" true true w).1 =
    Exc "Unable to open file (file signature not found)".
Proof. vm_compute. done. Qed.

Lemma hdf_to_dict_returns_once_open_witness :
  let root := [("k", Dataset (PBytes bad_bytes))] in
  let w := mkWorld {["bad.hdf" := HdfFile root]} [] in
  files w !! "bad.hdf" = Some (HdfFile root) ∧
  ∃ result w',
    hdf_to_dict utf8_decode "bad.hdf" true true w = (Ret result, w') ∧
    files w' = files w ∧
    match read_level utf8_decode true true (Group root) with
    | inr root_data => result = Some root_data ∧ stdout w' = stdout w
    | inl e => result = None ∧ stdout w' = stdout w ++ [FailedHdfRead e]
    end.
Proof.
  split; [reflexivity|].
  exact (hdf_to_dict_returns_once_open utf8_decode "bad.hdf" true true
           (mkWorld {["bad.hdf" := HdfFile [("k", Dataset (PBytes bad_bytes))]]} [])
           [("k", Dataset (PBytes bad_bytes))] eq_refl).
Defined.

(** The read of that file ends in [None] with the error printed. *)
Example undecodable_scalar_reads_none :
  hdf_to_dict utf8_decode "bad.hdf" true true
    (mkWorld {["bad.hdf" := HdfFile [("k", Dataset (PBytes bad_bytes))]]} []) =
  (Ret None,
   mkWorld {["bad.hdf" := HdfFile [("k", Dataset (PBytes bad_bytes))]]}
     [FailedHdfRead "'utf-8' codec can't decode bytes"]).
Proof. reflexivity. Qed.



(** The same dataset read with [to_lists] true is converted, and then
    decoded although [decode_strs] is false. *)
Example converted_array_is_decoded :
  let names := PArray [PBytes "ab"; PBytes "cd"] in
  let w := mkWorld {["d.hdf" := HdfFile [("names", Dataset names)]]} [] in
  (hdf_to_dict utf8_decode "d.hdf" true false w).1 =
    Ret (Some [("names", PList [PStr "ab"; PStr "cd"])]).
Proof. vm_compute. done. Qed.

(** An array of byte strings of a fixed length holds [numpy.bytes_]
    values: the test of line 230 does not take them for [bytes], and they
    come back undecoded with both flags set. *)
Example fixed_length_array_stays_bytes :
  let names := PArray [PNpBytes "ab"; PNpBytes "cd"] in
  let w := mkWorld {["d.hdf" := HdfFile [("names", Dataset names)]]} [] in
  starts_with_bytes names = false ∧
  (hdf_to_dict utf8_decode "d.hdf" true true w).1 =
    Ret (Some [("names", PList [PNpBytes "ab"; PNpBytes "cd"])]).
Proof. vm_compute. done. Qed.


(** The round trip also changes a text leaf when the read is not asked to
    decode: text comes back from the file as the bytes of its encoding,
    and those bytes are returned, not the text that was written. *)
Example text_leaf_reads_bytes :
  let tree := [("c", PStr "hello")] in
  let r := dict_to_hdf h5_plain open_ok json_text
             (PDict tree) "t.hdf" false false empty_world in
  accepts h5_plain (PStr "hello") = true ∧
  r.1 = Ret true ∧
  files r.2 !! "t.hdf" = Some (HdfFile [("c", Dataset (PBytes "hello"))]) ∧
  (hdf_to_dict utf8_decode "t.hdf" true false r.2).1 =
    Ret (Some [("c", PBytes "hello")]) ∧
  PBytes "hello" ≠ PStr "hello".
Proof. vm_compute. done. Qed.

(** The scenario of the specification: written through a container that
    returns text as bytes and lists as arrays, then read back. *)
Example scenario_lists :
  let w1 := (dict_to_hdf h5_plain open_ok json_text
               (PDict sample_tree) "t.hdf" false false empty_world).2 in
  (hdf_to_dict utf8_decode "t.hdf" true true w1).1 = Ret (Some sample_tree).
Proof. vm_compute. done. Qed.

Example scenario_arrays :
  let w1 := (dict_to_hdf h5_plain open_ok json_text
               (PDict sample_tree) "t.hdf" false false empty_world).2 in
  (hdf_to_dict utf8_decode "t.hdf" false true w1).1 =
  Ret (Some [("a", PDict [("b", PArray [PInt 1; PInt 2; PInt 3])]);
             ("c", PStr "hello")]).
Proof. vm_compute. done. Qed.

Lemma sample_tree_representable :
  tree_of (representable h5_plain utf8_decode) (PDict sample_tree).
Proof.
  apply tree_dict; [compute_done|].
  repeat apply List.Forall_cons; [| |apply List.Forall_nil].
  - apply tree_dict; [compute_done|].
    repeat apply List.Forall_cons; [|apply List.Forall_nil].
    apply tree_leaf; [done|]. eexists. split; [reflexivity|]. split.
    + eexists. split; [done|]. repeat constructor.
    + done.
  - apply tree_leaf; [done|]. eexists. split; [reflexivity|]. split.
    + right. left. by exists "hello", "hello".
    + by exists "hello".
Qed.


End ReadExamples.

(** ** Further facts about the writer *)

Lemma string_length_app (a b : string) :
  String.length (a +:+ b) = String.length a + String.length b.
Proof. induction a as [|c a IH]; simpl; [done|]. by rewrite IH. Qed.

Lemma substring_length (n : nat) (s : string) :
  String.length (String.substring 0 n s) = n `min` String.length s.
Proof.
  revert n. induction s as [|c s IH]; intros [|n]; simpl; try done.
  by rewrite IH.
Qed.

Lemma substring_prefix (a b : string) :
  String.substring 0 (String.length a) (a +:+ b) = a.
Proof.
  induction a as [|c a IH]; simpl.
  - by destruct b.
  - by rewrite IH.
Qed.

(** X5: [save_file[:-3]] removes a three-character suffix, that is, a dot and
    a two-character extension such as [.h5]. *)
Theorem drop_last3_suffix (base ext : string) :
  String.length ext = 3 → drop_last3 (base +:+ ext) = base.
Proof.
  intros Hext. unfold drop_last3. rewrite string_length_app, Hext.
  replace (String.length base + 3 - 3) with (String.length base) by lia.
  apply substring_prefix.
Qed.

Lemma drop_last3_suffix_witness :
  String.length ".h5" = 3 ∧ drop_last3 ("data" +:+ ".h5") = "data".
Proof.
  split; [reflexivity|]. exact (drop_last3_suffix "data" ".h5" eq_refl).
Defined.

(** The fallback path is never the path of the container. *)
Lemma json_path_differs (save_file : string) :
  drop_last3 save_file +:+ ".json" ≠ save_file.
Proof.
  intros Heq. apply (f_equal String.length) in Heq.
  unfold drop_last3 in Heq.
  rewrite string_length_app, substring_length in Heq. simpl in Heq. lia.
Qed.

Section WriteEffects.

Variable h5_dataset : pyval → h5_result.
Context `{!Linking}.
Variable open_error : string → option string.
Variable json_dumps : pyval → nat → string + string.

#[local] Abbreviation write_level := (write_level h5_dataset).
#[local] Abbreviation write_items := (write_items h5_dataset).
#[local] Abbreviation create_dataset := (create_dataset h5_dataset).
#[local] Abbreviation dict_to_hdf := (dict_to_hdf h5_dataset open_error json_dumps).
#[local] Abbreviation primary_ok := (primary_ok h5_dataset).

(** X1: the first leaf, at the level being written, whose dataset cannot
    be created ends [write_level], the keys up to it being names of links:
    it returns [False], and the line naming the key, the type of the value
    and the error is printed exactly when [show_detail] is set.  The group
    holds what the items before the leaf produced and what the failed call
    left, nothing of the items after it; and the failed call left nothing,
    or, when the error came after the dataset had been created, the
    dataset under the key. *)
Theorem write_level_leaf_failure
    fh pre k v post show_detail fh' out' e fh'' :
  links_names →
  plain_keys (PDict pre) = true →
  plain_name k = true →
  write_items (λ v, write_level [] v false) show_detail pre fh [] =
    (Ret true, fh', out') →
  is_dict v = false →
  create_dataset k v fh' = (Some e, fh'') →
  write_level fh (PDict (pre ++ (k, v) :: post)) show_detail =
  (Ret false, fh'',
   if show_detail then out' ++ [FailedDataset k (py_type v) e] else out') ∧
  (fh'' = fh' ∨
   ∃ raw, h5_dataset v = Broken e raw ∧ (k ∉ fh'.*1) ∧
          fh'' ≡ₚ fh' ++ [(k, Dataset raw)]).
Proof.
  intros Hlinks _ Hk Hpre Hleaf Hfail. split.
  { rewrite write_level_dict. by eapply write_items_leaf_failure. }
  unfold create_dataset in Hfail.
  destruct (Hlinks k fh' Hk) as [Hpar Hlink]. rewrite Hpar in Hfail.
  destruct (h5_dataset v) as [raw|e0|e0 raw];
    destruct (h5_link k fh') as [e1|put]; try (injection Hfail as <- <-);
    try done; try (by left).
  right. exists raw. destruct Hlink as [Hfresh Hput]. done.
Qed.

(** X2: after every call that returns, the container file is on disk and
    holds what [write_level] left in it, whether the write failed or
    not. *)
Theorem dict_to_hdf_keeps_container
    root_data save_file use_json_backup show_detail w :
  match open_error save_file with
  | Some e =>
      dict_to_hdf root_data save_file use_json_backup show_detail w = (Exc e, w)
  | None =>
      files (dict_to_hdf root_data save_file use_json_backup show_detail w).2
        !! save_file =
      Some (HdfFile (write_level [] root_data show_detail).1.2)
  end.
Proof.
  unfold dict_to_hdf, write_json.
  destruct (open_error save_file); [done|].
  destruct (write_level [] root_data show_detail) as [[r root] detail].
  pose proof (json_path_differs save_file) as Hne.
  destruct r as [[|]|e]; simpl; try apply lookup_insert_eq;
    (destruct use_json_backup; simpl; [|apply lookup_insert_eq]);
    (destruct (open_error _); simpl; [apply lookup_insert_eq|]);
    destruct (json_dumps _ _); simpl;
    rewrite lookup_insert_ne by done; apply lookup_insert_eq.
Qed.

(** X3: when the container write failed, [use_json_backup] is set and the
    path [save_file[:-3] + ".json"] can be opened, that file holds the
    text of [json.dumps(root_data, indent=4)], or nothing when
    [json.dumps] raised. *)
Theorem json_backup_written root_data save_file show_detail w :
  open_error save_file = None →
  primary_ok root_data show_detail = false →
  open_error (drop_last3 save_file +:+ ".json") = None →
  files (dict_to_hdf root_data save_file true show_detail w).2
    !! (drop_last3 save_file +:+ ".json") =
  Some (TextFile match json_dumps root_data 4 with
                 | inr text => text
                 | inl _ => ""
                 end).
Proof.
  intros Hopen Hfail Hjson.
  unfold dict_to_hdf, write_json, primary_ok in *.
  rewrite Hopen.
  destruct (write_level [] root_data show_detail) as [[r root] detail].
  simpl in Hfail.
  destruct r as [[|]|e]; [done|..]; simpl; rewrite Hjson;
    destruct (json_dumps _ _); simpl; apply lookup_insert_eq.
Qed.

(** X4: without [show_detail] no line about a dataset is printed: the call
    adds lines to the output, none of them a [FailedDataset]. *)
Theorem dict_to_hdf_no_detail root_data save_file use_json_backup w :
  ∃ added,
    stdout (dict_to_hdf root_data save_file use_json_backup false w).2 =
      stdout w ++ added ∧
    Forall (λ l, is_detail l = false) added.
Proof.
  unfold dict_to_hdf, write_json.
  destruct (open_error save_file).
  { exists []. by rewrite app_nil_r. }
  pose proof (write_level_silent h5_dataset [] root_data) as Hsilent.
  destruct (write_level [] root_data false) as [[r root] detail].
  simpl in Hsilent. subst detail. rewrite app_nil_r.
  destruct r as [[|]|e]; simpl.
  - eexists [_]. split; [reflexivity|]. by repeat constructor.
  - destruct use_json_backup; simpl.
    + destruct (open_error _); simpl; [|destruct (json_dumps _ _); simpl].
      * eexists [_; _]. rewrite <- app_assoc. split; [reflexivity|].
        by repeat constructor.
      * eexists [_; _]. rewrite <- app_assoc. split; [reflexivity|].
        by repeat constructor.
      * eexists [_]. split; [reflexivity|]. by repeat constructor.
    + eexists [_]. split; [reflexivity|]. by repeat constructor.
  - destruct use_json_backup; simpl.
    + destruct (open_error _); simpl; [|destruct (json_dumps _ _); simpl].
      * eexists [_; _; _]. rewrite <- !app_assoc. split; [reflexivity|].
        by repeat constructor.
      * eexists [_; _; _]. rewrite <- !app_assoc. split; [reflexivity|].
        by repeat constructor.
      * eexists [_; _]. rewrite <- !app_assoc. split; [reflexivity|].
        by repeat constructor.
    + eexists [_; _]. rewrite <- !app_assoc. split; [reflexivity|].
      by repeat constructor.
Qed.

End WriteEffects.

Section MoreExamples.
Import Demo.

Lemma write_level_leaf_failure_witness :
  let pre := [("a", PInt 1)] in
  let fh' := [("a", Dataset (PInt 1))] in
  let e := "Object dtype dtype('O') has no native HDF5 equivalent" in
  links_names ∧
  plain_keys (PDict pre) = true ∧
  plain_name "x" = true ∧
  write_items h5_plain (λ v, write_level h5_plain [] v false) true pre [] [] =
    (Ret true, fh', []) ∧
  is_dict (PObj "Foo") = false ∧
  create_dataset h5_plain "x" (PObj "Foo") fh' = (Some e, fh') ∧
  write_level h5_plain []
    (PDict (pre ++ ("x", PObj "Foo") :: [("c", PInt 2)])) true =
  (Ret false, fh', [] ++ [FailedDataset "x" (py_type (PObj "Foo")) e]).
Proof.
  split; [exact link_by_path_links|]. split; [reflexivity|].
  split; [reflexivity|]. split; [reflexivity|]. split; [reflexivity|].
  split; [reflexivity|].
  exact (proj1 (write_level_leaf_failure h5_plain []
           [("a", PInt 1)] "x" (PObj "Foo") [("c", PInt 2)] true
           [("a", Dataset (PInt 1))] []
           "Object dtype dtype('O') has no native HDF5 equivalent"
           [("a", Dataset (PInt 1))]
           link_by_path_links eq_refl eq_refl eq_refl eq_refl eq_refl)).
Defined.

(** Text with a NUL character is refused when it is written, after the
    dataset has been created: the write fails and the file has the
    dataset. *)
Example write_level_late_failure :
  let nul := String (Ascii.ascii_of_nat 0) EmptyString in
  let r := write_level h5_plain []
             (PDict [("a", PInt 1); ("k", PStr ("x" +:+ nul)); ("z", PInt 2)])
             false in
  r.1.1 = Ret false ∧ r.1.2.*1 = ["a"; "k"].
Proof. vm_compute. done. Qed.

Lemma json_backup_written_witness :
  let root_data := PDict [("x", PNone)] in
  open_ok "data.h5" = None ∧
  primary_ok h5_plain root_data false = false ∧
  open_ok (drop_last3 "data.h5" +:+ ".json") = None ∧
  files (dict_to_hdf h5_plain open_ok json_text
           root_data "data.h5" true false empty_world).2
    !! (drop_last3 "data.h5" +:+ ".json") =
  Some (TextFile match json_text root_data 4 with
                 | inr text => text
                 | inl _ => ""
                 end).
Proof.
  split; [reflexivity|]. split; [reflexivity|]. split; [reflexivity|].
  exact (json_backup_written h5_plain open_ok json_text
           (PDict [("x", PNone)]) "data.h5" false empty_world
           eq_refl eq_refl eq_refl).
Defined.

Lemma hdf_to_dict_open_error_witness :
  (∀ root, files empty_world !! "missing.hdf" ≠ Some (HdfFile root)) ∧
  ∃ e, hdf_to_dict utf8_decode "missing.hdf" true true empty_world =
       (Exc e, empty_world).
Proof.
  assert (∀ root, files empty_world !! "missing.hdf" ≠ Some (HdfFile root))
    as Hmissing by (intros root; unfold empty_world; simpl; by rewrite lookup_empty).
  split; [exact Hmissing|].
  exact (hdf_to_dict_open_error utf8_decode "missing.hdf" true true
           empty_world Hmissing).
Defined.

End MoreExamples.

Section EmptyMapping.

Variable h5_dataset : pyval → h5_result.
Context `{!Linking}.
Variable open_error : string → option string.
Variable json_dumps : pyval → nat → string + string.
Variable bytes_decode : string → string + string.
Context `{!Numpy}.

(** X7: writing the empty mapping to a path that can be opened gives a
    container with no group and no dataset, and reading it back gives the
    empty mapping. *)
Theorem empty_mapping_round_trip
    save_file use_json_backup show_detail to_lists decode_strs w :
  match open_error save_file with
  | Some e =>
      dict_to_hdf h5_dataset open_error json_dumps
        (PDict []) save_file use_json_backup show_detail w = (Exc e, w)
  | None =>
      let r := dict_to_hdf h5_dataset open_error json_dumps
                 (PDict []) save_file use_json_backup show_detail w in
      r.1 = Ret true ∧
      files r.2 !! save_file = Some (HdfFile []) ∧
      hdf_to_dict bytes_decode save_file to_lists decode_strs r.2 =
        (Ret (Some []), r.2)
  end.
Proof.
  unfold dict_to_hdf. destruct (open_error save_file); [done|]. simpl.
  split; [done|]. split; [apply lookup_insert_eq|].
  unfold hdf_to_dict. simpl. by rewrite lookup_insert_eq.
Qed.

End EmptyMapping.

(** ** More on the writer and the reader *)

Section ContainerFacts.

Variable h5_dataset : pyval → h5_result.
Context `{!Linking}.
Variable open_error : string → option string.
Variable json_dumps : pyval → nat → string + string.
Variable bytes_decode : string → string + string.
Context `{!Numpy}.

#[local] Abbreviation write_level := (write_level h5_dataset).
#[local] Abbreviation create_dataset := (create_dataset h5_dataset).
#[local] Abbreviation dict_to_hdf := (dict_to_hdf h5_dataset open_error json_dumps).
#[local] Abbreviation primary_ok := (primary_ok h5_dataset).
#[local] Abbreviation read_dataset := (read_dataset bytes_decode).
#[local] Abbreviation read_level := (read_level bytes_decode).
#[local] Abbreviation hdf_to_dict := (hdf_to_dict bytes_decode).
#[local] Abbreviation accepts := (accepts h5_dataset).
#[local] Abbreviation holds := (holds h5_dataset).
#[local] Abbreviation first_error := (first_error bytes_decode).

(** *** The writer *)

(** X19: [dict_to_hdf] leaves every file other than [save_file] and the
    JSON path as it was, and the file at the JSON path too unless the
    container write failed with [use_json_backup] set. *)
Theorem dict_to_hdf_other_files
    root_data save_file use_json_backup show_detail w p :
  p ≠ save_file →
  p ≠ drop_last3 save_file +:+ ".json" ∨ use_json_backup = false ∨
    primary_ok root_data show_detail = true →
  files (dict_to_hdf root_data save_file use_json_backup show_detail w).2 !! p =
  files w !! p.
Proof.
  intros Hp Hjson. unfold dict_to_hdf, write_json, primary_ok in *.
  destruct (open_error save_file); [done|].
  destruct (write_level [] root_data show_detail) as [[r root] detail].
  simpl in Hjson.
  destruct r as [[|]|e]; simpl; try (by rewrite lookup_insert_ne);
    (destruct use_json_backup; simpl; [|by rewrite lookup_insert_ne]);
    (destruct Hjson as [Hjson|[?|?]]; [|done..]);
    (destruct (open_error _); simpl; [by rewrite lookup_insert_ne|]);
    destruct (json_dumps _ _); simpl; by rewrite !lookup_insert_ne.
Qed.

(** X20: take a dictionary with unique keys that are names of links, at
    every level, whose leaves the container takes, and a path that can be
    opened; h5py links an object under such a name and raises only if the
    name is taken.  Then [dict_to_hdf] returns [True], prints the one line
    of line 181 and changes nothing but the file at [save_file], which
    holds the dictionary: a group for every dictionary and a dataset for
    every leaf, under their keys, in the order in which the file keeps
    them. *)
Theorem dict_to_hdf_writes_tree
    items save_file use_json_backup show_detail w :
  links_names →
  open_error save_file = None →
  plain_keys (PDict items) = true →
  tree_of (λ v, accepts v = true) (PDict items) →
  ∃ root,
    dict_to_hdf (PDict items) save_file use_json_backup show_detail w =
    (Ret true,
     mkWorld (<[save_file := HdfFile root]> (files w))
             (stdout w ++ [WroteFile])) ∧
    holds (PDict items) (Group root).
Proof.
  intros Hlinks Hopen Hkeys Htree.
  destruct (write_level_holds h5_dataset (PDict items) show_detail
              Hlinks eq_refl Hkeys Htree) as (root & Hwrite & Hholds).
  exists root. split; [|done].
  unfold dict_to_hdf. rewrite Hopen, Hwrite.
  simpl. unfold print, put_file. simpl. by rewrite app_nil_r.
Qed.

(** With names that are all new, the loop of [write_level] raises nothing
    if the recursive calls raise nothing, and returns whether every leaf
    of the level was accepted. *)
Lemma write_items_result rec show_detail items fh out :
  links_names →
  NoDup (fh.*1 ++ items.*1) →
  Forall (λ kv, plain_name kv.1 = true) items →
  Forall (λ kv, is_dict (kv.2) = true → ∃ b, (rec kv.2).1.1 = Ret b) items →
  (write_items h5_dataset rec show_detail items fh out).1.1 =
  Ret (forallb (λ kv, is_dict (kv.2) || accepts kv.2) items).
Proof.
  intros Hlinks. revert fh out.
  induction items as [|[k v] items IH]; intros fh out Hnd Hnames Hrec;
    [done|].
  apply Forall_cons in Hnames as [Hk Hnames].
  apply Forall_cons in Hrec as [Hv Hrec]. simpl in Hv, Hk.
  apply NoDup_app_cons_fresh in Hnd as [Hfresh Hnd].
  destruct (links_new_name k fh Hlinks Hk Hfresh)
    as (Hpar & put & Hlink & Hput).
  assert (∀ nd, NoDup ((put nd).*1 ++ items.*1)) as Hnd'.
  { intros nd. rewrite (Hput nd), fmap_app. exact Hnd. }
  cbn [write_items forallb snd]. destruct (is_dict v) eqn:Hd.
  - unfold create_group. rewrite Hlink.
    destruct (Hv eq_refl) as [b Hb].
    destruct (rec v) as [[r sub] out1]. simpl in Hb. subst r.
    cbn [orb andb]. by apply IH.
  - unfold create_dataset, accepts. rewrite Hpar.
    destruct (h5_dataset v) as [raw|e|e raw]; rewrite ?Hlink; [|done..].
    cbn [orb andb]. by apply IH.
Qed.

Lemma write_level_no_exception v show_detail :
  links_names → is_dict v = true → plain_keys v = true →
  tree_of (λ _, True) v →
  ∃ b, (write_level [] v show_detail).1.1 = Ret b.
Proof.
  intros Hlinks. revert show_detail.
  induction v as [v Hv|items IH] using pyval_dict_ind;
    intros show_detail Hd Hkeys Htree; [congruence|].
  inversion Htree as [? Hleaf|? Hnd Hsub]; subst; [done|].
  apply plain_keys_dict in Hkeys.
  rewrite write_level_dict. eexists. apply write_items_result; [done|done|..].
  - eapply Forall_impl; [exact Hkeys|]. by intros ? [? ?].
  - apply Forall_forall. intros [k v] Hin Hdv.
    rewrite Forall_forall in IH, Hsub, Hkeys. simpl in *.
    apply (IH _ Hin false Hdv); [apply (Hkeys _ Hin)|by apply (Hsub _ Hin)].
Qed.

(** X21: for a dictionary with unique keys that are names of links, at
    every level, written to an empty group, [write_level] raises nothing
    and returns whether the container takes every value of the top level
    that is no dictionary: what happens to the leaves inside the
    sub-dictionaries has no part in the result. *)
Theorem write_level_top_level items show_detail :
  links_names →
  plain_keys (PDict items) = true →
  tree_of (λ _, True) (PDict items) →
  (write_level [] (PDict items) show_detail).1.1 =
  Ret (forallb (λ kv, is_dict (kv.2) || accepts kv.2) items).
Proof.
  intros Hlinks Hkeys Htree.
  inversion Htree as [? Hleaf|? Hnd Hsub]; subst; [done|].
  apply plain_keys_dict in Hkeys.
  rewrite write_level_dict. apply write_items_result; [done|done|..].
  - eapply Forall_impl; [exact Hkeys|]. by intros ? [? ?].
  - apply Forall_forall. intros [k v] Hin Hdv. simpl in *.
    rewrite Forall_forall in Hsub, Hkeys.
    apply write_level_no_exception; [done|done|apply (Hkeys _ Hin)|].
    by apply (Hsub _ Hin).
Qed.

(** *** The reader *)

Lemma read_dataset_as_requested (to_lists decode_strs : bool) raw v :
  read_dataset to_lists decode_strs raw = inr v →
  as_requested to_lists decode_strs v ∧ (is_dict raw = false → is_dict v = false).
Proof.
  unfold read_dataset, convert_sequence, py_decode.
  destruct raw as [| | | | | |xs|xs| |], to_lists, decode_strs;
    cbn [negb andb];
    try (intros [= <-]; done);
    try (destruct (bytes_decode _); intros [= <-]; done);
    try (destruct (np_array xs) as [e|ys]; [done|]; cbn [andb]);
    try (destruct (starts_with_bytes _); cbn [andb];
         [destruct (decode_elements _ _); intros [= <-]; done
         |intros [= <-]; done]).
Qed.

Lemma leaves_dict_set (Q : pyval → Prop) k v (d : list (string * pyval)) :
  Forall Q (leaves (PDict d)) → Forall Q (leaves v) →
  Forall Q (leaves (PDict (dict_set k v d))).
Proof.
  intros Hd Hv. induction d as [|[k' v'] d IH]; simpl in *.
  - by rewrite app_nil_r.
  - apply Forall_app in Hd as [Hv' Hd]. case_decide; simpl.
    + by apply Forall_app.
    + apply Forall_app. split; [done|]. by apply IH.
Qed.

Lemma read_entries_leaf_forms rec to_lists decode_strs entries out d :
  Forall (λ e, ∀ d', Forall (λ raw, is_dict raw = false) (datasets e.2) →
                     rec e.2 = inr d' →
                     Forall (as_requested to_lists decode_strs) (leaves (PDict d')))
         entries →
  Forall (λ raw, is_dict raw = false)
         (concat ((λ e, datasets e.2) <$> entries)) →
  Forall (as_requested to_lists decode_strs) (leaves (PDict out)) →
  read_entries bytes_decode rec to_lists decode_strs entries out = inr d →
  Forall (as_requested to_lists decode_strs) (leaves (PDict d)).
Proof.
  revert out. induction entries as [|[k nd] entries IH];
    intros out Hrec Hnd Hout Hread; simpl in Hread.
  { by injection Hread as <-. }
  apply Forall_cons in Hrec as [Hsub Hrec]. simpl in Hsub, Hnd.
  apply Forall_app in Hnd as [Hnd1 Hnd2].
  destruct nd as [sub|raw].
  - destruct (rec (Group sub)) as [e|d'] eqn:Hd'; [done|].
    eapply IH; [done|done| |exact Hread].
    apply leaves_dict_set; [done|]. by apply Hsub.
  - destruct (read_dataset to_lists decode_strs raw) as [e|v] eqn:Hv; [done|].
    eapply IH; [done|done| |exact Hread].
    apply leaves_dict_set; [done|].
    apply read_dataset_as_requested in Hv as [Hreq Hleaf].
    apply Forall_cons in Hnd1 as [Hraw _]. specialize (Hleaf Hraw).
    destruct v; try done; by repeat constructor.
Qed.

Lemma read_level_leaf_forms to_lists decode_strs nd d :
  Forall (λ raw, is_dict raw = false) (datasets nd) →
  read_level to_lists decode_strs nd = inr d →
  Forall (as_requested to_lists decode_strs) (leaves (PDict d)).
Proof.
  revert d. induction nd as [raw|entries IH] using node_group_ind;
    intros d Hnd Hread; [done|].
  rewrite read_level_group in Hread.
  eapply read_entries_leaf_forms; [|exact Hnd| |exact Hread].
  - eapply Forall_impl; [exact IH|]. intros e He d' Hnd' Hd'. by apply He.
  - constructor.
Qed.

(** X23: in the dictionary [hdf_to_dict] returns for a container none of
    whose datasets holds a dictionary, every leaf has a type the flags
    allow: with [to_lists] no leaf is an array, without it no leaf is a
    list, and with [decode_strs] no leaf is of type [bytes] itself.  (A
    leaf may still be a [numpy.bytes_], which the test of line 234 does not
    take for [bytes]; the elements of a sequence are not leaves.) *)
Theorem hdf_to_dict_leaf_forms filename to_lists decode_strs w root d w' :
  files w !! filename = Some (HdfFile root) →
  Forall (λ raw, is_dict raw = false) (datasets (Group root)) →
  hdf_to_dict filename to_lists decode_strs w = (Ret (Some d), w') →
  Forall (as_requested to_lists decode_strs) (leaves (PDict d)).
Proof.
  intros Hfile Hnd. unfold hdf_to_dict. rewrite Hfile.
  destruct (read_level to_lists decode_strs (Group root)) as [e|d'] eqn:Hread;
    [done|].
  intros [= <- _]. by eapply read_level_leaf_forms.
Qed.

Lemma read_entries_names rec to_lists decode_strs entries out d :
  NoDup (out.*1 ++ entries.*1) →
  read_entries bytes_decode rec to_lists decode_strs entries out = inr d →
  ∃ d', d = out ++ d' ∧
    Forall2 (λ e kv, kv.1 = e.1 ∧
       match e.2 with
       | Group sub => ∃ sub', rec (Group sub) = inr sub' ∧ kv.2 = PDict sub'
       | Dataset raw => read_dataset to_lists decode_strs raw = inr kv.2
       end) entries d'.
Proof.
  revert out. induction entries as [|[k nd] entries IH]; intros out Hnd Hread;
    simpl in Hread.
  { injection Hread as <-. exists []. by rewrite app_nil_r. }
  simpl in Hnd. apply NoDup_app_cons_fresh in Hnd as [Hk Hnd].
  destruct nd as [sub|raw].
  - destruct (rec (Group sub)) as [e|sub'] eqn:Hsub; [done|].
    rewrite dict_set_fresh in Hread by done.
    destruct (IH (out ++ [(k, PDict sub')])) as (d' & -> & Hall);
      [by rewrite fmap_app|done|].
    exists ((k, PDict sub') :: d'). split; [by rewrite <- app_assoc|].
    constructor; [|done]. split; [done|]. simpl. by exists sub'.
  - destruct (read_dataset to_lists decode_strs raw) as [e|v] eqn:Hv; [done|].
    rewrite dict_set_fresh in Hread by done.
    destruct (IH (out ++ [(k, v)])) as (d' & -> & Hall);
      [by rewrite fmap_app|done|].
    exists ((k, v) :: d'). split; [by rewrite <- app_assoc|].
    constructor; [|done]. by split.
Qed.

(** X22: when [read_level] returns for a group whose member names are
    distinct, the dictionary has the names of the members as its keys, in
    the order of [keys()], a sub-group under its name as the dictionary
    [read_level] returns for it and a dataset as what lines 218-235 make
    of its value. *)
Theorem read_level_entries to_lists decode_strs entries d :
  NoDup entries.*1 →
  read_level to_lists decode_strs (Group entries) = inr d →
  Forall2 (λ e kv, kv.1 = e.1 ∧
     match e.2 with
     | Group sub =>
         ∃ sub', read_level to_lists decode_strs (Group sub) = inr sub' ∧
                 kv.2 = PDict sub'
     | Dataset raw => read_dataset to_lists decode_strs raw = inr kv.2
     end) entries d.
Proof.
  intros Hnd Hread. rewrite read_level_group in Hread.
  destruct (read_entries_names _ _ _ _ [] d Hnd Hread) as (d' & -> & Hall).
  done.
Qed.

Lemma first_error_app to_lists decode_strs l1 l2 :
  first_error to_lists decode_strs (l1 ++ l2) =
  match first_error to_lists decode_strs l1 with
  | Some e => Some e
  | None => first_error to_lists decode_strs l2
  end.
Proof.
  induction l1 as [|raw l1 IH]; [done|]. simpl.
  by destruct (read_dataset to_lists decode_strs raw).
Qed.

Lemma first_error_Some to_lists decode_strs raws e :
  first_error to_lists decode_strs raws = Some e ↔
  ∃ pre raw post, raws = pre ++ raw :: post ∧
    Forall (λ r, ∃ v, read_dataset to_lists decode_strs r = inr v) pre ∧
    read_dataset to_lists decode_strs raw = inl e.
Proof.
  split.
  - induction raws as [|raw raws IH]; [done|]. simpl.
    destruct (read_dataset to_lists decode_strs raw) as [e'|v] eqn:Hraw.
    + intros [= ->]. exists [], raw, raws. by repeat split.
    + intros (pre & raw' & post & -> & Hpre & Hraw')%IH.
      exists (raw :: pre), raw', post. repeat split; [|done].
      constructor; eauto.
  - intros (pre & raw & post & -> & Hpre & Hraw).
    induction Hpre as [|r pre [v Hr] _ IH]; simpl.
    + by rewrite Hraw.
    + by rewrite Hr.
Qed.

Lemma read_entries_first_error rec to_lists decode_strs entries out :
  Forall (λ e, match e.2 with
               | Group _ =>
                   match rec e.2 with
                   | inl err => first_error to_lists decode_strs (datasets e.2) = Some err
                   | inr _ => first_error to_lists decode_strs (datasets e.2) = None
                   end
               | Dataset _ => True
               end) entries →
  match read_entries bytes_decode rec to_lists decode_strs entries out with
  | inl err =>
      first_error to_lists decode_strs
        (concat ((λ e, datasets e.2) <$> entries)) = Some err
  | inr _ =>
      first_error to_lists decode_strs
        (concat ((λ e, datasets e.2) <$> entries)) = None
  end.
Proof.
  revert out. induction entries as [|[k nd] entries IH]; intros out Hrec;
    [done|].
  apply Forall_cons in Hrec as [Hnd Hrec]. simpl in Hnd.
  cbn [read_entries fmap list_fmap concat snd].
  rewrite first_error_app. destruct nd as [sub|raw].
  - destruct (rec (Group sub)) as [e|d']; rewrite Hnd; [done|]. apply IH, Hrec.
  - simpl. destruct (read_dataset to_lists decode_strs raw) as [e|v]; [done|].
    apply IH, Hrec.
Qed.

Lemma read_level_first_error_aux to_lists decode_strs nd :
  match nd with
  | Group _ =>
      match read_level to_lists decode_strs nd with
      | inl err => first_error to_lists decode_strs (datasets nd) = Some err
      | inr _ => first_error to_lists decode_strs (datasets nd) = None
      end
  | Dataset _ => True
  end.
Proof.
  induction nd as [raw|entries IH] using node_group_ind; [done|].
  rewrite read_level_group. by apply read_entries_first_error.
Qed.

Lemma read_level_first_error to_lists decode_strs entries e :
  read_level to_lists decode_strs (Group entries) = inl e ↔
  first_error to_lists decode_strs (datasets (Group entries)) = Some e.
Proof.
  pose proof (read_level_first_error_aux to_lists decode_strs (Group entries))
    as Haux. cbv beta iota in Haux.
  destruct (read_level to_lists decode_strs (Group entries)) as [e'|d];
    rewrite Haux; split; congruence.
Qed.

(** X24: [hdf_to_dict] on a file that opens returns [None] with the line
    of line 245 for the error [e] exactly when some dataset of the
    container, at any depth, does not read, [e] being the error of the
    first such dataset in the order of the traversal; one value that does
    not decode makes the whole read fail, and if every dataset reads the
    dictionary is returned. *)
Theorem hdf_to_dict_first_error filename to_lists decode_strs w root e :
  files w !! filename = Some (HdfFile root) →
  hdf_to_dict filename to_lists decode_strs w =
    (Ret None, print (FailedHdfRead e) w) ↔
  ∃ pre raw post, datasets (Group root) = pre ++ raw :: post ∧
    Forall (λ r, ∃ v, read_dataset to_lists decode_strs r = inr v) pre ∧
    read_dataset to_lists decode_strs raw = inl e.
Proof.
  intros Hfile. rewrite <- first_error_Some, <- read_level_first_error.
  unfold hdf_to_dict. rewrite Hfile.
  destruct (read_level to_lists decode_strs (Group root)) as [e'|d].
  - split; [|by intros [= ->]]. intros [= Hout].
    apply app_inv_head in Hout. congruence.
  - split; [intros [= ?]|done].
Qed.

End ContainerFacts.

Section ContainerExamples.
Import Demo.

Lemma dict_to_hdf_other_files_witness :
  let w := mkWorld {["notes.txt" := TextFile "keep"]} [] in
  "notes.txt" ≠ "data.h5" ∧
  "notes.txt" ≠ drop_last3 "data.h5" +:+ ".json" ∧
  files (dict_to_hdf h5_plain open_ok json_text
           (PDict [("x", PNone)]) "data.h5" true false w).2 !! "notes.txt" =
  files w !! "notes.txt".
Proof.
  assert ("notes.txt" ≠ "data.h5") as Hp by discriminate.
  assert ("notes.txt" ≠ drop_last3 "data.h5" +:+ ".json") as Hjson
    by discriminate.
  split; [exact Hp|]. split; [exact Hjson|].
  exact (dict_to_hdf_other_files h5_plain open_ok json_text
           (PDict [("x", PNone)]) "data.h5" true false
           (mkWorld {["notes.txt" := TextFile "keep"]} []) "notes.txt"
           Hp (or_introl Hjson)).
Defined.

Lemma sample_tree_accepted :
  tree_of (λ v, accepts h5_plain v = true) (PDict sample_tree).
Proof.
  apply tree_dict; [compute_done|].
  repeat apply List.Forall_cons; [| |apply List.Forall_nil].
  - apply tree_dict; [compute_done|].
    repeat apply List.Forall_cons; [|apply List.Forall_nil].
    by apply tree_leaf.
  - by apply tree_leaf.
Qed.

Lemma dict_to_hdf_writes_tree_witness :
  links_names ∧
  open_ok "t.hdf" = None ∧
  plain_keys (PDict sample_tree) = true ∧
  tree_of (λ v, accepts h5_plain v = true) (PDict sample_tree) ∧
  ∃ root,
    dict_to_hdf h5_plain open_ok json_text
      (PDict sample_tree) "t.hdf" false false empty_world =
    (Ret true,
     mkWorld (<["t.hdf" := HdfFile root]> (files empty_world))
             (stdout empty_world ++ [WroteFile])) ∧
    holds h5_plain (PDict sample_tree) (Group root).
Proof.
  split; [exact link_by_path_links|]. split; [reflexivity|].
  split; [reflexivity|]. split; [exact sample_tree_accepted|].
  exact (dict_to_hdf_writes_tree h5_plain open_ok json_text
           sample_tree "t.hdf" false false empty_world
           link_by_path_links eq_refl eq_refl sample_tree_accepted).
Defined.

(** The file of that example, and one written from keys that are not in
    the order of their names: the file keeps, and [hdf_to_dict] returns,
    the keys in the order of the names. *)
Example dict_to_hdf_sample_file :
  files (dict_to_hdf h5_plain open_ok json_text
           (PDict sample_tree) "t.hdf" false false empty_world).2 !! "t.hdf" =
  Some (HdfFile [("a", Group [("b", Dataset (PArray [PInt 1; PInt 2; PInt 3]))]);
                 ("c", Dataset (PBytes "hello"))]).
Proof. vm_compute. done. Qed.

Example keys_come_back_by_name :
  let w1 := (dict_to_hdf h5_plain open_ok json_text
               (PDict [("c", PInt 1); ("a", PInt 2)])
               "t.hdf" false false empty_world).2 in
  files w1 !! "t.hdf" =
    Some (HdfFile [("a", Dataset (PInt 2)); ("c", Dataset (PInt 1))]) ∧
  (hdf_to_dict utf8_decode "t.hdf" true true w1).1 =
    Ret (Some [("a", PInt 2); ("c", PInt 1)]).
Proof. vm_compute. done. Qed.

(** Keys that are paths can make [write_level] fail at a leaf the
    container takes, or raise: the key [a/b] after the key [a] finds a
    dataset on its way, and the key [a] after the key [a/b] finds the
    group that [a/b] has made. *)
Example write_level_path_keys :
  (write_level h5_plain []
     (PDict [("a", PInt 1); ("a/b", PInt 2)]) false).1.1 = Ret false ∧
  match (write_level h5_plain []
           (PDict [("a/b", PDict []); ("a", PDict [])]) false).1.1 with
  | Exc _ => True
  | Ret _ => False
  end.
Proof. vm_compute. done. Qed.

Lemma nested_reject_tree :
  tree_of (λ _, True)
    (PDict [("a", PDict [("b", PObj "Foo")]); ("c", PInt 1)]).
Proof.
  apply tree_dict; [compute_done|].
  repeat apply List.Forall_cons; [| |apply List.Forall_nil].
  - apply tree_dict; [compute_done|].
    repeat apply List.Forall_cons; [|apply List.Forall_nil].
    by apply tree_leaf.
  - by apply tree_leaf.
Qed.

Lemma write_level_top_level_witness :
  let items := [("a", PDict [("b", PObj "Foo")]); ("c", PInt 1)] in
  links_names ∧
  plain_keys (PDict items) = true ∧
  tree_of (λ _, True) (PDict items) ∧
  accepts h5_plain (PObj "Foo") = false ∧
  forallb (λ kv, is_dict (kv.2) || accepts h5_plain kv.2) items = true ∧
  (write_level h5_plain [] (PDict items) true).1.1 =
  Ret (forallb (λ kv, is_dict (kv.2) || accepts h5_plain kv.2) items).
Proof.
  split; [exact link_by_path_links|]. split; [reflexivity|].
  split; [exact nested_reject_tree|]. split; [reflexivity|].
  split; [reflexivity|].
  exact (write_level_top_level h5_plain
           [("a", PDict [("b", PObj "Foo")]); ("c", PInt 1)] true
           link_by_path_links eq_refl nested_reject_tree).
Defined.

Lemma read_level_entries_witness :
  let entries :=
    [("a", Group [("b", Dataset (PArray [PInt 1; PInt 2]))]);
     ("c", Dataset (PBytes "hello"))] in
  let d := [("a", PDict [("b", PList [PInt 1; PInt 2])]); ("c", PStr "hello")] in
  NoDup entries.*1 ∧
  read_level utf8_decode true true (Group entries) = inr d ∧
  Forall2 (λ e kv, kv.1 = e.1 ∧
     match e.2 with
     | Group sub =>
         ∃ sub', read_level utf8_decode true true (Group sub) = inr sub' ∧
                 kv.2 = PDict sub'
     | Dataset raw => read_dataset utf8_decode true true raw = inr kv.2
     end) entries d.
Proof.
  assert (NoDup ([("a", Group [("b", Dataset (PArray [PInt 1; PInt 2]))]);
                  ("c", Dataset (PBytes "hello"))].*1)) as Hnd
    by compute_done.
  split; [exact Hnd|]. split; [reflexivity|].
  exact (read_level_entries utf8_decode true true
           [("a", Group [("b", Dataset (PArray [PInt 1; PInt 2]))]);
            ("c", Dataset (PBytes "hello"))]
           [("a", PDict [("b", PList [PInt 1; PInt 2])]); ("c", PStr "hello")]
           Hnd eq_refl).
Defined.

Lemma hdf_to_dict_leaf_forms_witness :
  let root :=
    [("a", Group [("b", Dataset (PArray [PInt 1; PInt 2]))]);
     ("c", Dataset (PBytes "hello"))] in
  let d := [("a", PDict [("b", PList [PInt 1; PInt 2])]); ("c", PStr "hello")] in
  let w := mkWorld {["t.hdf" := HdfFile root]} [] in
  files w !! "t.hdf" = Some (HdfFile root) ∧
  Forall (λ raw, is_dict raw = false) (datasets (Group root)) ∧
  hdf_to_dict utf8_decode "t.hdf" true true w = (Ret (Some d), w) ∧
  Forall (as_requested true true) (leaves (PDict d)).
Proof.
  assert (Forall (λ raw, is_dict raw = false)
            (datasets (Group
               [("a", Group [("b", Dataset (PArray [PInt 1; PInt 2]))]);
                ("c", Dataset (PBytes "hello"))]))) as Hnd
    by (by repeat constructor).
  split; [reflexivity|]. split; [exact Hnd|]. split; [reflexivity|].
  exact (hdf_to_dict_leaf_forms utf8_decode "t.hdf" true true
           (mkWorld {["t.hdf" := HdfFile
              [("a", Group [("b", Dataset (PArray [PInt 1; PInt 2]))]);
               ("c", Dataset (PBytes "hello"))]]} [])
           [("a", Group [("b", Dataset (PArray [PInt 1; PInt 2]))]);
            ("c", Dataset (PBytes "hello"))]
           [("a", PDict [("b", PList [PInt 1; PInt 2])]); ("c", PStr "hello")]
           _ eq_refl Hnd eq_refl).
Defined.

(** A byte string stored with a fixed length comes back as a
    [numpy.bytes_]: the test of line 234 does not take it for [bytes], and
    it stays as it is with [decode_strs] set. *)
Example fixed_length_scalar_stays_bytes :
  let w := mkWorld {["t.hdf" := HdfFile [("k", Dataset (PNpBytes "abc"))]]} [] in
  (hdf_to_dict utf8_decode "t.hdf" true true w).1 =
    Ret (Some [("k", PNpBytes "abc")]) ∧
  as_requested true true (PNpBytes "abc").
Proof. vm_compute. done. Qed.

Lemma hdf_to_dict_first_error_witness :
  let root :=
    [("a", Group [("b", Dataset (PInt 1)); ("k", Dataset (PBytes bad_bytes))]);
     ("c", Dataset (PBytes "hello"))] in
  let w := mkWorld {["bad.hdf" := HdfFile root]} [] in
  let e := "'utf-8' codec can't decode bytes" in
  files w !! "bad.hdf" = Some (HdfFile root) ∧
  (hdf_to_dict utf8_decode "bad.hdf" true true w =
     (Ret None, print (FailedHdfRead e) w) ↔
   ∃ pre raw post, datasets (Group root) = pre ++ raw :: post ∧
     Forall (λ r, ∃ v, read_dataset utf8_decode true true r = inr v) pre ∧
     read_dataset utf8_decode true true raw = inl e).
Proof.
  assert (files (mkWorld {["bad.hdf" := HdfFile
              [("a", Group [("b", Dataset (PInt 1));
                            ("k", Dataset (PBytes bad_bytes))]);
               ("c", Dataset (PBytes "hello"))]]} []) !! "bad.hdf" =
          Some (HdfFile
              [("a", Group [("b", Dataset (PInt 1));
                            ("k", Dataset (PBytes bad_bytes))]);
               ("c", Dataset (PBytes "hello"))])) as Hfile by reflexivity.
  split; [exact Hfile|].
  exact (hdf_to_dict_first_error utf8_decode "bad.hdf" true true _ _
           "'utf-8' codec can't decode bytes" Hfile).
Defined.

Example hdf_to_dict_first_error_sample :
  let root :=
    [("a", Group [("b", Dataset (PInt 1)); ("k", Dataset (PBytes bad_bytes))]);
     ("c", Dataset (PBytes "hello"))] in
  let w := mkWorld {["bad.hdf" := HdfFile root]} [] in
  datasets (Group root) = [PInt 1] ++ PBytes bad_bytes :: [PBytes "hello"] ∧
  hdf_to_dict utf8_decode "bad.hdf" true true w =
    (Ret None, print (FailedHdfRead "'utf-8' codec can't decode bytes") w).
Proof. split; reflexivity. Qed.

End ContainerExamples.

(** ** [barstr] *)

Section BarstrFacts.
Import Text.

Context {char : Type} `{!EqDecision char}.
Variable space : char.

Implicit Types (bc s text : list char).

Lemma repeat_list_snoc n bc : repeat_list n bc ++ bc = bc ++ repeat_list n bc.
Proof.
  induction n as [|n IH]; simpl; [by rewrite app_nil_r|].
  by rewrite <- app_assoc, IH.
Qed.

Lemma repeat_list_length n bc :
  length (repeat_list n bc) = n * length bc.
Proof. induction n as [|n IH]; simpl; [done|]. rewrite length_app. lia. Qed.

Lemma repeat_list_singleton n (c : char) : repeat_list n [c] = replicate n c.
Proof. induction n as [|n IH]; simpl; [done|]. by rewrite IH. Qed.

(** The loop with a non-empty bar ends within [width - len(s)] iterations,
    with [a] bars in front and [b] behind, alternating from the side
    [pad_back] names, and as few of them as reach [width]. *)
Lemma barstr_loop_ends fuel width bc s pad_back :
  bc ≠ [] →
  Z.to_nat (width - Z.of_nat (length s)) ≤ fuel →
  ∃ a b,
    barstr_loop fuel width bc s pad_back =
      Some (repeat_list a bc ++ s ++ repeat_list b bc) ∧
    (if pad_back then a ≤ b ≤ a + 1 else b ≤ a ≤ b + 1) ∧
    (width ≤ Z.of_nat (length s + (a + b) * length bc))%Z ∧
    (a + b = 0 ∨
     (Z.of_nat (length s + (a + b - 1) * length bc) < width)%Z).
Proof.
  intros Hbc. assert (0 < length bc) as Hlen by (destruct bc; simpl; [done|lia]).
  revert s pad_back. induction fuel as [|fuel IH]; intros s pad_back Hfuel;
    simpl; destruct (Z.ltb_spec (Z.of_nat (length s)) width) as [Hlt|Hge];
    try lia;
    try (exists 0, 0; simpl; rewrite app_nil_r;
         repeat split; [by destruct pad_back; lia|lia|by left]).
  destruct (IH (if pad_back then s ++ bc else bc ++ s) (negb pad_back))
    as (a & b & Hloop & Hab & Hreach & Hleast).
  { destruct pad_back; rewrite length_app; lia. }
  rewrite Hloop. destruct pad_back; simpl in *.
  - exists a, (S b). split; [|split; [lia|]].
    { simpl. by rewrite <- app_assoc. }
    rewrite length_app in Hreach, Hleast. split; [nia|]. right.
    destruct Hleast as [Hz|Hleast]; [|nia].
    assert (a = 0 ∧ b = 0) as [-> ->] by lia. simpl. lia.
  - exists (S a), b. split; [|split; [lia|]].
    { simpl. rewrite <- (app_assoc bc s).
      rewrite (app_assoc (repeat_list a bc) bc).
      by rewrite repeat_list_snoc, <- !app_assoc. }
    rewrite length_app in Hreach, Hleast. split; [nia|]. right.
    destruct Hleast as [Hz|Hleast]; [|nia].
    assert (a = 0 ∧ b = 0) as [-> ->] by lia. simpl. lia.
Qed.

(** X8: with a non-empty bar [barstr] returns within [width - len(s)]
    iterations, [s] being the text with its two spaces when [pad] is set.
    The result is [s] between [a] bars in front and [b] behind, where the
    front gets the first bar and at most one more than the back, and the
    bars are as few as bring the length to [width]: none when [s] is wide
    enough already. *)
Theorem barstr_result fuel text width bc (pad : bool) :
  let s := if pad then [space] ++ text ++ [space] else text in
  bc ≠ [] →
  Z.to_nat (width - Z.of_nat (length s)) ≤ fuel →
  ∃ a b,
    barstr space fuel text width bc pad =
      Some (repeat_list a bc ++ s ++ repeat_list b bc) ∧
    b ≤ a ≤ b + 1 ∧
    (width ≤ Z.of_nat (length s + (a + b) * length bc))%Z ∧
    (a + b = 0 ∨
     (Z.of_nat (length s + (a + b - 1) * length bc) < width)%Z).
Proof.
  intros s Hbc Hfuel.
  destruct (barstr_loop_ends fuel width bc s false Hbc Hfuel)
    as (a & b & Hloop & Hab & Hreach & Hleast).
  exists a, b. split; [exact Hloop|]. split; [exact Hab|].
  split; [exact Hreach|exact Hleast].
Qed.

(** X9: with a one-character bar the result of [barstr] is exactly
    [width] long when the text (with its spaces) is shorter, and the text
    itself otherwise: the text sits between [a] and [b] copies of the bar
    character, [a + b] making up the missing length and [a] being [b] or
    [b + 1]. *)
Theorem barstr_centered fuel text width (c : char) (pad : bool) :
  let s := if pad then [space] ++ text ++ [space] else text in
  let missing := Z.to_nat (width - Z.of_nat (length s)) in
  missing ≤ fuel →
  ∃ a b,
    barstr space fuel text width [c] pad =
      Some (replicate a c ++ s ++ replicate b c) ∧
    a + b = missing ∧ b ≤ a ≤ b + 1 ∧
    Z.of_nat (length (replicate a c ++ s ++ replicate b c)) =
      Z.max width (Z.of_nat (length s)).
Proof.
  intros s missing Hfuel.
  destruct (barstr_loop_ends fuel width [c] s false) as
    (a & b & Hloop & Hab & Hreach & Hleast); [done|done|].
  simpl in Hreach, Hleast. rewrite !repeat_list_singleton in Hloop.
  exists a, b. split; [exact Hloop|].
  assert (a + b = missing) as Hsum by (unfold missing; lia).
  split; [done|]. split; [done|].
  rewrite !length_app, !length_replicate. unfold missing in Hsum. lia.
Qed.

(** X10: with the empty bar and a text (with its spaces) shorter than
    [width] the loop of [barstr] never ends: no number of iterations
    gives a result. *)
Theorem barstr_empty_bar_loops fuel text width (pad : bool) :
  let s := if pad then [space] ++ text ++ [space] else text in
  (Z.of_nat (length s) < width)%Z →
  barstr space fuel text width [] pad = None.
Proof.
  intros s Hshort. unfold barstr. fold s.
  generalize false. induction fuel as [|fuel IH]; intros pad_back; simpl;
    destruct (Z.ltb_spec (Z.of_nat (length s)) width); try lia; [done|].
  destruct pad_back; rewrite ?app_nil_r; apply IH.
Qed.

End BarstrFacts.

(** ** [ensureWhitespace] *)

Section EnsureWhitespaceFacts.
Import Text.

Context {char : Type} `{!EqDecision char}.

Implicit Types (s r pre post joined targets pad_char seen todo : list char).
Implicit Types (whitespace_list : list char) (tc : char).

Lemma list_index_None tc s : list_index tc s = None ↔ tc ∉ s.
Proof.
  induction s as [|c s IH]; simpl.
  - split; [intros _; apply not_elem_of_nil|done].
  - rewrite not_elem_of_cons. case_decide as Hc.
    + split; [done|]. intros [Hne _]. congruence.
    + destruct (list_index tc s); simpl.
      * split; [done|]. intros [_ Hs]. by apply IH in Hs.
      * split; [|done]. intros _. split; [congruence|]. by apply IH.
Qed.

Lemma list_index_Some tc s i :
  list_index tc s = Some i → s !! i = Some tc ∧ tc ∉ take i s.
Proof.
  revert i. induction s as [|c s IH]; intros i; simpl; [done|].
  case_decide as Hc.
  - intros [= <-]. subst. split; [done|]. apply not_elem_of_nil.
  - destruct (list_index tc s) as [j|]; simpl; [|done].
    intros [= <-]. destruct (IH j eq_refl) as [Hj Hnot]. simpl.
    split; [done|]. apply not_elem_of_cons. split; [congruence|done].
Qed.

(** One unfolding of the inner loop. *)
Lemma scan_target_unfold fuel s tc whitespace_list pad_char start_index :
  scan_target fuel s tc whitespace_list pad_char start_index =
  match list_index tc (drop start_index s) with
  | None => Some s
  | Some i =>
      match fuel with
      | O => None
      | S fuel' =>
          let idx := i + start_index in
          let add0 :=
            if decide (idx = 0) then false
            else if is_space_at whitespace_list s (idx - 1) then false
            else true in
          let addf :=
            if decide (length s - 1 ≤ idx) then false
            else if is_space_at whitespace_list s (idx + 1) then false
            else true in
          let s1 := if addf then insert_at (idx + 1) pad_char s else s in
          let s2 := if add0 then insert_at idx pad_char s1 else s1 in
          scan_target fuel' s2 tc whitespace_list pad_char
            (if addf then idx + 1 + 1 else idx + 1)
      end
  end.
Proof. by destruct fuel. Qed.

Lemma insert_at_grows i pad_char s :
  s `sublist_of` insert_at i pad_char s ∧
  length (insert_at i pad_char s) = length s + length pad_char ∧
  Forall (λ c, c ∈ s ∨ c ∈ pad_char) (insert_at i pad_char s).
Proof.
  unfold insert_at. split; [|split].
  - rewrite <- (take_drop i s) at 1.
    apply sublist_app; [done|]. by apply sublist_inserts_l.
  - rewrite !length_app, length_take, length_drop. lia.
  - rewrite !Forall_app. repeat split; apply Forall_forall; intros c Hc.
    + left. by apply (subseteq_take i s).
    + by right.
    + left. by apply (subseteq_drop i s).
Qed.

(** What one inner loop does to the string when it ends: it only inserts
    copies of [pad_char]. *)
Lemma scan_target_inserts fuel s tc whitespace_list pad_char start_index r :
  scan_target fuel s tc whitespace_list pad_char start_index = Some r →
  s `sublist_of` r ∧
  (∃ k, length r = length s + k * length pad_char) ∧
  Forall (λ c, c ∈ s ∨ c ∈ pad_char) r.
Proof.
  revert s start_index. induction fuel as [|fuel IH]; intros s start_index;
    rewrite scan_target_unfold;
    destruct (list_index tc (drop start_index s)) as [i|];
    try done;
    try (intros [= <-]; split; [done|]; split; [by exists 0|];
         apply Forall_forall; intros c Hc; by left).
  simpl. set (idx := i + start_index).
  set (s1 := if (if decide (length s - 1 ≤ idx) then false else _) then _ else s).
  set (s2 := if (if decide (idx = 0) then false else _) then _ else s1).
  assert (s `sublist_of` s1 ∧
          (∃ k, length s1 = length s + k * length pad_char) ∧
          Forall (λ c, c ∈ s ∨ c ∈ pad_char) s1) as (Hsub1 & [k1 Hlen1] & Hin1).
  { subst s1. destruct (if decide (length s - 1 ≤ idx) then false else _).
    - destruct (insert_at_grows (idx + 1) pad_char s) as (? & ? & ?).
      split; [done|]. split; [exists 1; lia|done].
    - split; [done|]. split; [by exists 0|].
      apply Forall_forall; intros c Hc; by left. }
  assert (s1 `sublist_of` s2 ∧
          (∃ k, length s2 = length s1 + k * length pad_char) ∧
          Forall (λ c, c ∈ s1 ∨ c ∈ pad_char) s2) as (Hsub2 & [k2 Hlen2] & Hin2).
  { subst s2. destruct (if decide (idx = 0) then false else _).
    - destruct (insert_at_grows idx pad_char s1) as (? & ? & ?).
      split; [done|]. split; [exists 1; lia|done].
    - split; [done|]. split; [by exists 0|].
      apply Forall_forall; intros c Hc; by left. }
  intros Hr. destruct (IH _ _ Hr) as (Hsub & [k Hlen] & Hin).
  split; [by etrans; [|etrans]|]. split; [exists (k1 + k2 + k); lia|].
  rewrite Forall_forall in Hin1, Hin2, Hin. apply Forall_forall.
  intros c Hc. destruct (Hin c Hc) as [Hc2|]; [|by right].
  destruct (Hin2 c Hc2) as [Hc1|]; [|by right]. by apply Hin1.
Qed.

(** X11: when [ensureWhitespace] returns, its result is the input with
    copies of [pad_char] inserted and nothing else changed: the input is a
    subsequence of the result, the length grew by a multiple of
    [len(pad_char)], and every character of the result comes from the
    input or from [pad_char]. *)
Theorem ensureWhitespace_only_inserts
    fuel joined s targets whitespace_list pad_char r :
  ensureWhitespace fuel joined s targets whitespace_list pad_char = Some r →
  s `sublist_of` r ∧
  (∃ k, length r = length s + k * length pad_char) ∧
  Forall (λ c, c ∈ s ∨ c ∈ pad_char) r.
Proof.
  unfold ensureWhitespace. revert s.
  induction joined as [|tc joined IH]; intros s; simpl.
  { intros [= <-]. split; [done|]. split; [by exists 0|].
    apply Forall_forall; intros c Hc; by left. }
  destruct (scan_target fuel s tc whitespace_list pad_char 0) as [s'|] eqn:Hs';
    [|done].
  intros Hr. apply scan_target_inserts in Hs' as (Hsub1 & [k1 Hlen1] & Hin1).
  destruct (IH _ Hr) as (Hsub & [k Hlen] & Hin).
  split; [by etrans|]. split; [exists (k1 + k); lia|].
  rewrite Forall_forall in Hin1, Hin. apply Forall_forall.
  intros c Hc. destruct (Hin c Hc) as [Hc1|]; [|by right]. by apply Hin1.
Qed.

(** X12: a string in which no target occurs is returned unchanged, with
    any number of iterations allowed and whatever the order of the set. *)
Theorem ensureWhitespace_no_target
    fuel joined s targets whitespace_list pad_char :
  joined_set targets joined →
  (∀ c, c ∈ targets → c ∉ s) →
  ensureWhitespace fuel joined s targets whitespace_list pad_char = Some s.
Proof.
  intros [_ Hjoined] Hnone. unfold ensureWhitespace.
  assert (∀ c, c ∈ joined → c ∉ s) as Hj by (intros c Hc; by apply Hnone, Hjoined).
  clear Hjoined Hnone. induction joined as [|tc joined IH]; simpl; [done|].
  rewrite scan_target_unfold.
  assert (list_index tc (drop 0 s) = None) as ->.
  { apply list_index_None. simpl. apply Hj. by left. }
  apply IH. intros c Hc. apply Hj. by right.
Qed.

Lemma list_index_app_r tc pre post :
  tc ∉ pre → list_index tc (pre ++ tc :: post) = Some (length pre).
Proof.
  induction pre as [|c pre IH]; simpl; intros Hpre.
  - by rewrite decide_True.
  - apply not_elem_of_cons in Hpre as [Hne Hpre].
    rewrite decide_False by congruence. by rewrite IH.
Qed.

(** One iteration of the inner loop at the first target from
    [start_index] on: the pads go where the neighbours ask for them. *)
Lemma scan_target_step fuel seen tc post whitespace_list pad_char start_index :
  start_index ≤ length seen →
  tc ∉ drop start_index seen →
  let add0 := wants_pad whitespace_list (last seen) in
  let addf := wants_pad whitespace_list (head post) in
  scan_target (S fuel) (seen ++ tc :: post) tc whitespace_list pad_char
    start_index =
  scan_target fuel
    (seen ++ (if add0 then pad_char else []) ++
     tc :: (if addf then pad_char else []) ++ post)
    tc whitespace_list pad_char
    (if addf then length seen + 1 + 1 else length seen + 1).
Proof.
  intros Hstart Hnot add0 addf. rewrite scan_target_unfold.
  rewrite drop_app_le by done. rewrite list_index_app_r by done.
  rewrite length_drop.
  replace (length seen - start_index + start_index) with (length seen) by lia.
  cbv zeta.
  assert ((if decide (length seen = 0) then false
           else if is_space_at whitespace_list (seen ++ tc :: post)
                     (length seen - 1) then false else true) = add0) as ->.
  { subst add0. destruct seen as [|d seen'] using rev_ind; [done|].
    rewrite length_app. simpl. rewrite decide_False by lia.
    rewrite last_snoc. unfold is_space_at.
    rewrite <- app_assoc. rewrite lookup_app_r by lia.
    replace (length seen' + 1 - 1 - length seen') with 0 by lia. simpl.
    by destruct (bool_decide _). }
  assert ((if decide (length (seen ++ tc :: post) - 1 ≤ length seen) then false
           else if is_space_at whitespace_list (seen ++ tc :: post)
                     (length seen + 1) then false else true) = addf) as ->.
  { subst addf. rewrite length_app. simpl. destruct post as [|n post']; simpl.
    - by rewrite decide_True by lia.
    - rewrite decide_False by lia. unfold is_space_at.
      rewrite lookup_app_r by lia.
      replace (length seen + 1 - length seen) with 1 by lia. simpl.
      by destruct (bool_decide _). }
  assert (insert_at (length seen + 1) pad_char (seen ++ tc :: post) =
          seen ++ tc :: pad_char ++ post) as Hf.
  { unfold insert_at.
    replace (seen ++ tc :: post) with ((seen ++ [tc]) ++ post)
      by (by rewrite <- app_assoc).
    rewrite take_app_length' by (rewrite length_app; simpl; lia).
    rewrite drop_app_length' by (rewrite length_app; simpl; lia).
    by rewrite <- !app_assoc. }
  assert (∀ rest, insert_at (length seen) pad_char (seen ++ rest) =
                  seen ++ pad_char ++ rest) as H0.
  { intros rest. unfold insert_at.
    by rewrite take_app_length, drop_app_length. }
  destruct addf, add0; simpl; rewrite ?Hf, ?H0; done.
Qed.

(** A pad that ends in a character that is no white space, put before a
    target, leaves the target in need of a pad before it whenever the scan
    comes upon the target again: when no pad went behind it, or when the
    pad is longer than the one character the scan skips. *)
Lemma scan_target_loops fuel seen tc post whitespace_list pad_char start_index :
  start_index ≤ length seen →
  tc ∉ drop start_index seen →
  wants_pad whitespace_list (last seen) = true →
  wants_pad whitespace_list (head post) = false ∨ 2 ≤ length pad_char →
  tc ∉ pad_char →
  wants_pad whitespace_list (last pad_char) = true →
  scan_target fuel (seen ++ tc :: post) tc whitespace_list pad_char
    start_index = None.
Proof.
  intros Hstart Hnot Hadd0 Haddf Htc Hlast.
  assert (0 < length pad_char) as Hpad by (destruct pad_char; simpl; [done|lia]).
  revert seen post start_index Hstart Hnot Hadd0 Haddf.
  induction fuel as [|fuel IH];
    intros seen post start_index Hstart Hnot Hadd0 Haddf.
  - rewrite scan_target_unfold, drop_app_le by done.
    by rewrite list_index_app_r.
  - rewrite scan_target_step by done. rewrite Hadd0.
    assert (∀ n, tc ∉ drop (length seen + n) (seen ++ pad_char)) as Hdrop.
    { intros n. rewrite drop_app_ge by lia. intros Hin.
      apply Htc. eapply elem_of_sublist; [exact Hin|apply sublist_drop]. }
    assert (wants_pad whitespace_list (last (seen ++ pad_char)) = true)
      as Hadd0'.
    { rewrite last_app. by destruct (last pad_char). }
    destruct (wants_pad whitespace_list (head post)) eqn:Hf.
    + (* a pad behind as well: the pad before is longer than the skip *)
      destruct Haddf as [?|Hlong]; [done|].
      rewrite (app_assoc seen pad_char), <- Nat.add_assoc.
      apply IH; [|apply Hdrop|done|by right].
      rewrite length_app. simpl. lia.
    + simpl. rewrite (app_assoc seen pad_char).
      apply IH; [|apply Hdrop|done|by left].
      rewrite length_app. lia.
Qed.

(** A character that is no target is passed over. *)
Lemma scan_target_skip fuel seen c todo tc whitespace_list pad_char :
  c ≠ tc →
  scan_target fuel (seen ++ c :: todo) tc whitespace_list pad_char
    (length seen) =
  scan_target fuel ((seen ++ [c]) ++ todo) tc whitespace_list pad_char
    (length (seen ++ [c])).
Proof.
  intros Hc. rewrite !scan_target_unfold, !drop_app_length.
  cbn [list_index]. rewrite decide_False by done.
  replace ((seen ++ [c]) ++ todo) with (seen ++ c :: todo)
    by (by rewrite <- app_assoc).
  destruct (list_index tc todo) as [i|]; cbn [fmap option_fmap option_map];
    [|done].
  destruct fuel as [|fuel]; [done|].
  by replace (S i + length seen) with (i + length (seen ++ [c]))
    by (rewrite length_app; simpl; lia).
Qed.

Section Pads.
Variables (tc p : char) (whitespace_list : list char).
Hypothesis Hp : p ∈ whitespace_list.
Hypothesis Hne : p ≠ tc.

(** With a one-character pad that is white space, the inner loop for
    [tc] ends within two iterations per character and computes
    [pad_target]. *)
Lemma scan_target_pads todo seen fuel :
  2 * length todo ≤ fuel →
  scan_target fuel (seen ++ todo) tc whitespace_list [p] (length seen) =
  Some (seen ++ pad_target tc p whitespace_list (last seen) todo).
Proof.
  revert seen fuel. induction todo as [|c todo IH]; intros seen fuel Hfuel.
  { rewrite scan_target_unfold, drop_app_length. done. }
  destruct (decide (c = tc)) as [->|Hc].
  - simpl in Hfuel. destruct fuel as [|fuel]; [lia|].
    rewrite scan_target_step; [|done|by rewrite drop_all; apply not_elem_of_nil].
    cbn [pad_target]. rewrite decide_True by done.
    destruct (wants_pad whitespace_list (last seen)) eqn:Hadd0;
      destruct (wants_pad whitespace_list (head todo)) eqn:Haddf.
    + (* a pad on both sides *)
      destruct todo as [|n todo']; [done|]. simpl in Haddf.
      apply negb_true_iff in Haddf.
      destruct (last seen) as [q|] eqn:Hlast; [|done]. simpl in Hadd0.
      apply negb_true_iff in Hadd0. rewrite Hadd0, Haddf. simpl.
      replace (seen ++ p :: tc :: p :: n :: todo')
        with ((seen ++ [p; tc]) ++ p :: n :: todo') by (by rewrite <- app_assoc).
      replace (length seen + 1 + 1) with (length (seen ++ [p; tc]))
        by (rewrite length_app; simpl; lia).
      rewrite scan_target_skip by done.
      rewrite IH by (simpl in *; lia).
      rewrite last_snoc. by rewrite <- !app_assoc.
    + (* a pad before only: the target is found once more *)
      destruct (last seen) as [q|] eqn:Hlast; [|done]. simpl in Hadd0.
      apply negb_true_iff in Hadd0. rewrite Hadd0. simpl.
      destruct fuel as [|fuel]; [lia|].
      replace (seen ++ p :: tc :: todo) with ((seen ++ [p]) ++ tc :: todo)
        by (by rewrite <- app_assoc).
      replace (length seen + 1) with (length (seen ++ [p]))
        by (rewrite length_app; simpl; lia).
      rewrite scan_target_step;
        [|done|by rewrite drop_all; apply not_elem_of_nil].
      rewrite last_snoc, Haddf. simpl. rewrite bool_decide_eq_true_2 by done.
      simpl.
      replace ((seen ++ [p]) ++ tc :: todo)
        with ((seen ++ [p; tc]) ++ todo) by (by rewrite <- !app_assoc).
      replace (length (seen ++ [p]) + 1) with (length (seen ++ [p; tc]))
        by (rewrite !length_app; simpl; lia).
      rewrite IH by lia. rewrite last_app_cons. cbn [last].
      rewrite <- !app_assoc. simpl.
      destruct todo as [|n todo']; [done|]. simpl in Haddf.
      apply negb_false_iff in Haddf. by rewrite Haddf.
    + (* a pad behind only *)
      destruct todo as [|n todo']; [done|]. simpl in Haddf.
      apply negb_true_iff in Haddf. rewrite Haddf. simpl.
      assert ((match last seen with
               | Some q => if bool_decide (q ∈ whitespace_list) then [] else [p]
               | None => []
               end) = []) as ->.
      { destruct (last seen); [|done]. simpl in Hadd0.
        apply negb_false_iff in Hadd0. by rewrite Hadd0. }
      simpl.
      replace (seen ++ tc :: p :: n :: todo')
        with ((seen ++ [tc; p]) ++ n :: todo') by (by rewrite <- app_assoc).
      replace (length seen + 1 + 1) with (length (seen ++ [tc; p]))
        by (rewrite length_app; simpl; lia).
      rewrite IH by (simpl in *; lia).
      rewrite last_app_cons. cbn [last]. by rewrite <- !app_assoc.
    + (* no pad *)
      assert ((match last seen with
               | Some q => if bool_decide (q ∈ whitespace_list) then [] else [p]
               | None => []
               end) = []) as ->.
      { destruct (last seen); [|done]. simpl in Hadd0.
        apply negb_false_iff in Hadd0. by rewrite Hadd0. }
      simpl.
      replace (seen ++ tc :: todo) with ((seen ++ [tc]) ++ todo)
        by (by rewrite <- app_assoc).
      replace (length seen + 1) with (length (seen ++ [tc]))
        by (rewrite length_app; simpl; lia).
      rewrite IH by lia. rewrite last_snoc. rewrite <- !app_assoc. simpl.
      destruct todo as [|n todo']; [done|]. simpl in Haddf.
      apply negb_false_iff in Haddf. by rewrite Haddf.
  - rewrite scan_target_skip by done. rewrite IH by (simpl in *; lia).
    rewrite last_snoc. cbn [pad_target]. rewrite decide_False by done.
    by rewrite <- app_assoc.
Qed.

Lemma pad_target_head tc' prev n l :
  head (pad_target tc' p whitespace_list prev (n :: l)) = Some n ∨
  head (pad_target tc' p whitespace_list prev (n :: l)) = Some p.
Proof.
  cbn [pad_target]. case_decide as Hn; [|by left]. subst.
  destruct prev as [q|]; [|by left].
  destruct (bool_decide (q ∈ whitespace_list)); [by left|by right].
Qed.

Lemma pad_target_next_space tc' prev l :
  match l with n :: _ => n ∈ whitespace_list | [] => True end →
  match pad_target tc' p whitespace_list prev l with
  | n :: _ => n ∈ whitespace_list
  | [] => True
  end.
Proof.
  destruct l as [|n l]; [done|]. intros Hn.
  destruct (pad_target_head tc' prev n l) as [Hh|Hh];
    destruct (pad_target tc' p whitespace_list prev (n :: l)); try done;
    simpl in Hh; by injection Hh as ->.
Qed.

(** Padding for any target keeps the occurrences of [tc] spaced. *)
Lemma pad_target_keeps_spaced tc' l prev_in prev_out :
  prev_out = prev_in ∨ prev_out = Some p →
  spaced tc whitespace_list prev_in l →
  spaced tc whitespace_list prev_out
    (pad_target tc' p whitespace_list prev_out l).
Proof.
  revert prev_in prev_out. induction l as [|c l IH];
    intros prev_in prev_out Hprev Hsp; [done|].
  destruct Hsp as [Hc Hl].
  assert (match prev_in with Some q => q ∈ whitespace_list | None => True end →
          match prev_out with Some q => q ∈ whitespace_list | None => True end)
    as Hprev_ok.
  { by destruct Hprev as [-> | ->]. }
  cbn [pad_target]. case_decide as Hct.
  - (* [c] is the target being padded *)
    subst c.
    assert (spaced tc whitespace_list
              (if decide (tc' = tc) then prev_out else Some p)
              (tc' :: match l with
                      | [] => []
                      | n :: _ =>
                          if bool_decide (n ∈ whitespace_list)
                          then pad_target tc' p whitespace_list (Some tc') l
                          else p :: pad_target tc' p whitespace_list (Some p) l
                      end)) as Hrest.
    { split.
      - intros ->. rewrite decide_True by done.
        destruct (Hc eq_refl) as [Hq Hn]. split; [by apply Hprev_ok|].
        destruct l as [|n l']; [done|].
        rewrite bool_decide_eq_true_2 by done.
        by apply pad_target_next_space.
      - destruct l as [|n l']; [done|].
        destruct (bool_decide (n ∈ whitespace_list)).
        + eapply IH; [|exact Hl]. by left.
        + split; [by intros ?|]. eapply IH; [|exact Hl]. by right. }
    destruct prev_out as [q|]; simpl.
    + destruct (bool_decide (q ∈ whitespace_list)) eqn:Hq; simpl.
      * destruct Hrest as [Hhd Htl]. split; [|done].
        intros ->. rewrite decide_True in Hhd by done. by apply Hhd.
      * split; [by intros ?|]. destruct Hrest as [Hhd Htl]. split; [|done].
        intros ->. split; [done|]. rewrite decide_True in Hhd by done.
        by apply Hhd.
    + destruct Hrest as [Hhd Htl]. split; [|done].
      intros ->. rewrite decide_True in Hhd by done. by apply Hhd.
  - split.
    + intros ->. destruct (Hc eq_refl) as [Hq Hn].
      split; [by apply Hprev_ok|]. by apply pad_target_next_space.
    + eapply IH; [|exact Hl]. by left.
Qed.

(** Padding for [tc] leaves every occurrence of [tc] spaced. *)
Lemma pad_target_spaced l prev :
  spaced tc whitespace_list prev (pad_target tc p whitespace_list prev l).
Proof.
  revert prev. induction l as [|c l IH]; intros prev; [done|].
  cbn [pad_target]. case_decide as Hct.
  - subst c.
    assert (∀ q, (match q with Some x => x ∈ whitespace_list | None => True end) →
      spaced tc whitespace_list q
        (tc :: match l with
               | [] => []
               | n :: _ =>
                   if bool_decide (n ∈ whitespace_list)
                   then pad_target tc p whitespace_list (Some tc) l
                   else p :: pad_target tc p whitespace_list (Some p) l
               end)) as Hrest.
    { intros q Hq. split.
      - intros _. split; [done|]. destruct l as [|n l']; [done|].
        destruct (bool_decide (n ∈ whitespace_list)) eqn:Hn; [|done].
        apply bool_decide_eq_true in Hn. by apply pad_target_next_space.
      - destruct l as [|n l']; [done|].
        destruct (bool_decide (n ∈ whitespace_list)); [apply IH|].
        split; [by intros ?|]. apply IH. }
    destruct prev as [q|]; simpl.
    + destruct (bool_decide (q ∈ whitespace_list)) eqn:Hq; simpl.
      * apply bool_decide_eq_true in Hq. exact (Hrest (Some q) Hq).
      * split; [by intros ?|]. exact (Hrest (Some p) Hp).
    + exact (Hrest None I).
  - split; [by intros ?|]. apply IH.
Qed.

(** A string whose targets are spaced is left as it is. *)
Lemma pad_target_spaced_id l prev :
  spaced tc whitespace_list prev l →
  pad_target tc p whitespace_list prev l = l.
Proof.
  revert prev. induction l as [|c l IH]; intros prev Hsp; [done|].
  destruct Hsp as [Hc Hl].
  cbn [pad_target]. case_decide as Hct.
  - subst c. destruct (Hc eq_refl) as [Hq Hn].
    assert ((match prev with
             | Some q => if bool_decide (q ∈ whitespace_list) then [] else [p]
             | None => []
             end) = []) as ->.
    { destruct prev; [|done]. by rewrite bool_decide_eq_true_2. }
    simpl. f_equal. destruct l as [|n l']; [done|].
    rewrite bool_decide_eq_true_2 by done. by apply IH.
  - f_equal. by apply IH.
Qed.

Lemma pad_target_length l prev :
  length (pad_target tc p whitespace_list prev l) ≤ 3 * length l.
Proof.
  revert prev. induction l as [|c l IH]; intros prev; [done|].
  cbn [pad_target]. case_decide as Hct.
  - rewrite length_app. cbn [length].
    assert (length (match prev with
                    | Some q => if bool_decide (q ∈ whitespace_list) then [] else [p]
                    | None => []
                    end) ≤ 1) as Hpre.
    { destruct prev as [q|]; [|simpl; lia].
      destruct (bool_decide (q ∈ whitespace_list)); simpl; lia. }
    destruct l as [|n l']; [simpl; lia|].
    destruct (bool_decide (n ∈ whitespace_list)).
    + specialize (IH (Some tc)). lia.
    + specialize (IH (Some p)). cbn [length] in *. lia.
  - specialize (IH (Some c)). cbn [length] in *. lia.
Qed.

End Pads.

(** A string whose targets are spaced ends the inner loop unchanged, for
    any [pad_char]. *)
Lemma scan_target_spaced todo seen fuel tc whitespace_list pad_char :
  spaced tc whitespace_list (last seen) todo →
  length todo ≤ fuel →
  scan_target fuel (seen ++ todo) tc whitespace_list pad_char (length seen) =
  Some (seen ++ todo).
Proof.
  revert seen fuel. induction todo as [|c todo IH]; intros seen fuel Hsp Hfuel.
  { rewrite scan_target_unfold, drop_app_length. done. }
  destruct Hsp as [Hc Hsp]. destruct (decide (c = tc)) as [->|Hne].
  - simpl in Hfuel. destruct fuel as [|fuel]; [lia|].
    destruct (Hc eq_refl) as [Hq Hn].
    rewrite scan_target_step; [|done|by rewrite drop_all; apply not_elem_of_nil].
    assert (wants_pad whitespace_list (last seen) = false) as ->.
    { destruct (last seen); [|done]. simpl. by rewrite bool_decide_eq_true_2. }
    assert (wants_pad whitespace_list (head todo) = false) as ->.
    { destruct todo; [done|]. simpl. by rewrite bool_decide_eq_true_2. }
    simpl.
    replace (seen ++ tc :: todo) with ((seen ++ [tc]) ++ todo)
      by (by rewrite <- app_assoc).
    replace (length seen + 1) with (length (seen ++ [tc]))
      by (rewrite length_app; simpl; lia).
    apply IH; [by rewrite last_snoc|lia].
  - rewrite scan_target_skip by done.
    replace (seen ++ c :: todo) with ((seen ++ [c]) ++ todo)
      by (by rewrite <- app_assoc).
    apply IH; [by rewrite last_snoc|simpl in Hfuel; lia].
Qed.

Lemma scan_targets_pads fuel joined s whitespace_list p :
  p ∈ whitespace_list → p ∉ joined →
  2 * 3 ^ length joined * length s ≤ fuel →
  scan_targets fuel s joined whitespace_list [p] =
  Some (pad_targets p whitespace_list joined s).
Proof.
  intros Hp. revert s. induction joined as [|tc joined IH]; intros s Hnot Hfuel;
    [done|].
  apply not_elem_of_cons in Hnot as [Hne Hnot].
  cbn [scan_targets pad_targets foldl].
  pose proof (scan_target_pads tc p whitespace_list Hp Hne s [] fuel) as Hscan.
  cbn [app length last] in Hscan. rewrite Hscan.
  - apply IH; [done|].
    pose proof (pad_target_length tc p whitespace_list s None) as Hlen.
    cbn [length] in Hfuel. rewrite Nat.pow_succ_r' in Hfuel. nia.
  - cbn [length] in Hfuel. rewrite Nat.pow_succ_r' in Hfuel.
    assert (0 < 3 ^ length joined) by (apply Nat.neq_0_lt_0, Nat.pow_nonzero; lia).
    nia.
Qed.

Lemma pad_targets_keeps_spaced joined s whitespace_list p tc :
  p ∈ whitespace_list → p ≠ tc →
  spaced tc whitespace_list None s →
  spaced tc whitespace_list None (pad_targets p whitespace_list joined s).
Proof.
  intros Hp Hne. revert s. induction joined as [|t joined IH]; intros s Hs;
    [done|].
  cbn [pad_targets foldl]. apply IH.
  apply (pad_target_keeps_spaced tc p whitespace_list Hp Hne t s None None);
    [by left|done].
Qed.

Lemma pad_targets_spaced joined s whitespace_list p tc :
  p ∈ whitespace_list → p ∉ joined → tc ∈ joined →
  spaced tc whitespace_list None (pad_targets p whitespace_list joined s).
Proof.
  intros Hp. revert s. induction joined as [|t joined IH]; intros s Hnot Htc.
  { by apply elem_of_nil in Htc. }
  apply not_elem_of_cons in Hnot as [Hne Hnot].
  cbn [pad_targets foldl].
  destruct (decide (tc = t)) as [->|Hother].
  - apply pad_targets_keeps_spaced; [done..|].
    by apply pad_target_spaced.
  - apply elem_of_cons in Htc as [?|Htc]; [done|]. by apply IH.
Qed.

(** X13: [ensureWhitespace] never returns when the first target it treats
    has an occurrence [tc] (its first) that follows a character [q] that
    is no white space, the pad ends in a character [e] that is no white
    space and holds no [tc], and either no pad is due behind [tc] (the
    string ends there, or white space follows) or the pad has two
    characters or more: the pad put before [tc] is itself taken for a
    missing pad when the scan meets [tc] again, at every iteration. *)
Theorem ensureWhitespace_pad_loops
    fuel rest pre tc post targets whitespace_list pad_char (q e : char) :
  tc ∉ pre →
  last pre = Some q → q ∉ whitespace_list →
  match post with n :: _ => n ∈ whitespace_list | [] => True end ∨
    2 ≤ length pad_char →
  tc ∉ pad_char →
  last pad_char = Some e → e ∉ whitespace_list →
  ensureWhitespace fuel (tc :: rest) (pre ++ tc :: post) targets
    whitespace_list pad_char = None.
Proof.
  intros Hpre Hq Hqw Hpost Htc He Hew. unfold ensureWhitespace.
  cbn [scan_targets]. rewrite scan_target_loops; try done.
  - lia.
  - rewrite Hq. simpl. by rewrite bool_decide_eq_false_2.
  - destruct Hpost as [Hpost|Hlong]; [left|by right].
    destruct post; [done|]. simpl. by rewrite bool_decide_eq_true_2.
  - rewrite He. simpl. by rewrite bool_decide_eq_false_2.
Qed.

(** X14: with a pad of one character that is white space and no target,
    [ensureWhitespace] returns once the inner loops are given
    [2 * 3 ^ n * len(s)] iterations, [n] the number of distinct targets.
    The result is [pad_targets]: every target in turn, read from left to
    right, gets the pad before it unless it starts the string or follows
    white space, and behind it unless it ends the string or white space
    follows.  In the result every occurrence of every target has white
    space or an end of the string on both sides. *)
Theorem ensureWhitespace_result fuel joined s targets whitespace_list p :
  joined_set targets joined →
  p ∈ whitespace_list → p ∉ targets →
  2 * 3 ^ length joined * length s ≤ fuel →
  ensureWhitespace fuel joined s targets whitespace_list [p] =
    Some (pad_targets p whitespace_list joined s) ∧
  ∀ tc, tc ∈ targets →
    spaced tc whitespace_list None (pad_targets p whitespace_list joined s).
Proof.
  intros [_ Hjoined] Hp Hnot Hfuel.
  assert (p ∉ joined) as Hnot' by (by rewrite Hjoined).
  split; [by apply scan_targets_pads|].
  intros tc Htc. apply pad_targets_spaced; [done..|]. by apply Hjoined.
Qed.

(** X15: a string in which every occurrence of every target already has
    white space or an end of the string on both sides is returned
    unchanged, whatever [pad_char] is, within [len(s)] iterations.  In
    particular the results of a white-space pad are mapped to themselves. *)
Theorem ensureWhitespace_spaced_unchanged
    fuel joined s targets whitespace_list pad_char :
  joined_set targets joined →
  (∀ tc, tc ∈ targets → spaced tc whitespace_list None s) →
  length s ≤ fuel →
  ensureWhitespace fuel joined s targets whitespace_list pad_char = Some s.
Proof.
  intros [_ Hjoined] Hsp Hfuel. unfold ensureWhitespace.
  assert (∀ tc, tc ∈ joined → spaced tc whitespace_list None s) as Hj
    by (intros tc Htc; by apply Hsp, Hjoined).
  clear Hjoined Hsp. induction joined as [|tc joined IH]; [done|].
  cbn [scan_targets].
  pose proof (scan_target_spaced s [] fuel tc whitespace_list pad_char) as Hscan.
  cbn [app length last] in Hscan. rewrite Hscan; [|apply Hj; by left|done].
  apply IH. intros t Ht. apply Hj. by right.
Qed.

End EnsureWhitespaceFacts.

(** ** The text helpers on examples

    Characters are given by their code: 32 the space, 9 the tab, 42 [*],
    44 the comma, 59 the semicolon, 95 the underscore, 97 [a]. *)

Section TextExamples.
Import Text.

Example barstr_sample :
  barstr 32 9 [104; 105] 9 [42] true =
  Some [42; 42; 42; 32; 104; 105; 32; 42; 42].
Proof. reflexivity. Qed.

Lemma barstr_result_witness :
  let s := [32] ++ [104; 105] ++ [32] in
  [42; 45] ≠ [] ∧
  Z.to_nat (9 - Z.of_nat (length s)) ≤ 5 ∧
  ∃ a b,
    barstr 32 5 [104; 105] 9 [42; 45] true =
      Some (repeat_list a [42; 45] ++ s ++ repeat_list b [42; 45]) ∧
    b ≤ a ≤ b + 1 ∧
    (9 ≤ Z.of_nat (length s + (a + b) * length [42; 45]))%Z ∧
    (a + b = 0 ∨
     (Z.of_nat (length s + (a + b - 1) * length [42; 45]) < 9)%Z).
Proof.
  assert ([42; 45] ≠ ([] : list nat)) as Hbc by discriminate.
  assert (Z.to_nat (9 - Z.of_nat (length ([32] ++ [104; 105] ++ [32]))) ≤ 5)
    as Hfuel by (simpl; lia).
  split; [exact Hbc|]. split; [exact Hfuel|].
  exact (barstr_result 32 5 [104; 105] 9 [42; 45] true Hbc Hfuel).
Defined.

Lemma barstr_centered_witness :
  let s := [32] ++ [104; 105] ++ [32] in
  Z.to_nat (9 - Z.of_nat (length s)) ≤ 5 ∧
  ∃ a b,
    barstr 32 5 [104; 105] 9 [42] true =
      Some (replicate a 42 ++ s ++ replicate b 42) ∧
    a + b = Z.to_nat (9 - Z.of_nat (length s)) ∧ b ≤ a ≤ b + 1 ∧
    Z.of_nat (length (replicate a 42 ++ s ++ replicate b 42)) =
      Z.max 9 (Z.of_nat (length s)).
Proof.
  assert (Z.to_nat (9 - Z.of_nat (length ([32] ++ [104; 105] ++ [32]))) ≤ 5)
    as Hfuel by (simpl; lia).
  split; [exact Hfuel|].
  exact (barstr_centered 32 5 [104; 105] 9 42 true Hfuel).
Defined.

Lemma barstr_empty_bar_loops_witness :
  (Z.of_nat (length [104; 105]) < 5)%Z ∧
  barstr 32 1000 [104; 105] 5 [] false = None.
Proof.
  assert (Z.of_nat (length [104; 105]) < 5)%Z as Hshort by (simpl; lia).
  split; [exact Hshort|].
  exact (barstr_empty_bar_loops 32 1000 [104; 105] 5 false Hshort).
Defined.

Example ensureWhitespace_sample :
  ensureWhitespace 10 [59; 44] [97; 44; 98; 59; 32; 99] [44; 59; 44]
    [32; 9] [32] =
  Some [97; 32; 44; 32; 98; 32; 59; 32; 99].
Proof. reflexivity. Qed.

Lemma ensureWhitespace_only_inserts_witness :
  let s := [97; 44; 98] in
  let r := [97; 95; 44; 95; 98] in
  ensureWhitespace 6 [44] s [44] [32; 9] [95] = Some r ∧
  s `sublist_of` r ∧
  (∃ k, length r = length s + k * length [95]) ∧
  Forall (λ c, c ∈ s ∨ c ∈ [95]) r.
Proof.
  split; [reflexivity|].
  exact (ensureWhitespace_only_inserts 6 [44] [97; 44; 98] [44] [32; 9]
           [95] [97; 95; 44; 95; 98] eq_refl).
Defined.

Lemma ensureWhitespace_no_target_witness :
  joined_set [44; 44] [44] ∧
  (∀ c, c ∈ [44; 44] → c ∉ [97; 98]) ∧
  ensureWhitespace 0 [44] [97; 98] [44; 44] [32; 9] [32] = Some [97; 98].
Proof.
  assert (joined_set [44; 44] [44]) as Hjoined.
  { split; [apply NoDup_singleton|]. intros c.
    rewrite !elem_of_cons, elem_of_nil. tauto. }
  assert (∀ c, c ∈ [44; 44] → c ∉ [97; 98]) as Hnone.
  { intros c Hc Hs. rewrite !elem_of_cons, elem_of_nil in Hc, Hs. lia. }
  split; [exact Hjoined|]. split; [exact Hnone|].
  exact (ensureWhitespace_no_target 0 [44] [97; 98] [44; 44] [32; 9] [32]
           Hjoined Hnone).
Defined.

Lemma ensureWhitespace_pad_loops_witness :
  (44 ∉ [97]) ∧ last [97] = Some 97 ∧ (97 ∉ [32; 9]) ∧
  (44 ∉ [95]) ∧ last [95] = Some 95 ∧ (95 ∉ [32; 9]) ∧
  ensureWhitespace 1000 [44] ([97] ++ [44]) [44] [32; 9] [95] = None.
Proof.
  assert (44 ∉ [97]) as H1 by (rewrite !elem_of_cons, elem_of_nil; lia).
  assert (97 ∉ [32; 9]) as H2 by (rewrite !elem_of_cons, elem_of_nil; lia).
  assert (44 ∉ [95]) as H3 by (rewrite !elem_of_cons, elem_of_nil; lia).
  assert (95 ∉ [32; 9]) as H4 by (rewrite !elem_of_cons, elem_of_nil; lia).
  split; [exact H1|]. split; [reflexivity|]. split; [exact H2|].
  split; [exact H3|]. split; [reflexivity|]. split; [exact H4|].
  exact (ensureWhitespace_pad_loops 1000 [] [97] 44 [] [44] [32; 9] [95]
           97 95 H1 eq_refl H2 (or_introl I) H3 eq_refl H4).
Defined.

Lemma ensureWhitespace_result_witness :
  let s := [97; 44; 98; 59; 32; 99] in
  let r := [97; 32; 44; 32; 98; 32; 59; 32; 99] in
  joined_set [44; 59; 44] [59; 44] ∧ 32 ∈ [32; 9] ∧ (32 ∉ [44; 59; 44]) ∧
  2 * 3 ^ length [59; 44] * length s ≤ 108 ∧
  pad_targets 32 [32; 9] [59; 44] s = r ∧
  ensureWhitespace 108 [59; 44] s [44; 59; 44] [32; 9] [32] =
    Some (pad_targets 32 [32; 9] [59; 44] s) ∧
  ∀ tc, tc ∈ [44; 59; 44] →
    spaced tc [32; 9] None (pad_targets 32 [32; 9] [59; 44] s).
Proof.
  assert (joined_set [44; 59; 44] [59; 44]) as Hjoined.
  { split.
    - apply NoDup_cons. split; [|apply NoDup_singleton].
      rewrite !elem_of_cons, elem_of_nil. lia.
    - intros c. rewrite !elem_of_cons, elem_of_nil. tauto. }
  assert (32 ∈ [32; 9]) as Hp by (apply elem_of_cons; by left).
  assert (32 ∉ [44; 59; 44]) as Hnot
    by (rewrite !elem_of_cons, elem_of_nil; lia).
  assert (2 * 3 ^ length [59; 44] * length [97; 44; 98; 59; 32; 99] ≤ 108)
    as Hfuel by (simpl; lia).
  split; [exact Hjoined|]. split; [exact Hp|]. split; [exact Hnot|].
  split; [exact Hfuel|]. split; [reflexivity|].
  exact (ensureWhitespace_result 108 [59; 44] [97; 44; 98; 59; 32; 99]
           [44; 59; 44] [32; 9] 32 Hjoined Hp Hnot Hfuel).
Defined.

Lemma ensureWhitespace_spaced_unchanged_witness :
  let s := [97; 32; 44; 9; 98; 32; 44] in
  joined_set [44] [44] ∧
  (∀ tc, tc ∈ [44] → spaced tc [32; 9] None s) ∧
  length s ≤ 7 ∧
  ensureWhitespace 7 [44] s [44] [32; 9] [95; 95] = Some s.
Proof.
  assert (joined_set [44] [44]) as Hjoined.
  { split; [apply NoDup_singleton|]. intros c. tauto. }
  assert (∀ tc, tc ∈ [44] → spaced tc [32; 9] None [97; 32; 44; 9; 98; 32; 44])
    as Hsp.
  { intros tc Htc. rewrite !elem_of_cons, elem_of_nil in Htc.
    assert (tc = 44) as -> by tauto.
    cbn [spaced]. rewrite !elem_of_cons, elem_of_nil.
    repeat (split || intro); lia. }
  assert (length [97; 32; 44; 9; 98; 32; 44] ≤ 7) as Hfuel by (simpl; lia).
  split; [exact Hjoined|]. split; [exact Hsp|]. split; [exact Hfuel|].
  exact (ensureWhitespace_spaced_unchanged 7 [44] [97; 32; 44; 9; 98; 32; 44]
           [44] [32; 9] [95; 95] Hjoined Hsp Hfuel).
Defined.

End TextExamples.
